(** * hrouter: a hash router, [src/router.ts]

    A shallow embedding of the router class and the properties of its
    registration ([use]), resolution ([find]) and dispatch
    ([handleRoutes]) methods.

    Modelling decisions, in one place:

    - JavaScript strings are [string]; [String.prototype.replace] with a
      string pattern and [String.prototype.split(sep)[0]] are written
      with [String.index] and [String.substring].
    - The [Parameters] object built by [find] is a [gmap string Value]
      of its own properties; an assignment to it goes through
      [set_property], which knows the one name that an object made by
      an object literal does not store a string under.
    - [path-to-regexp] is an external package.  Its two entry points
      [pathToRegexp] and [compile] are variables of the section; a
      compiled [RegExp] is represented by its [exec] function, and
      [test] is [exec] returning a match, as for every regular
      expression without the global or sticky flag.
    - A handler is a function of an optional context and an optional
      continuation in a state-and-exception monad over [World].  The
      field [_lastPath] of the class lives in [World], next to the
      other cells a handler can reach, because the guards stored inside
      [_routes] write it; [Router] holds [_base] and [_routes]. *)

From Stdlib Require Import String Ascii.
From stdpp Require Import base option list gmap strings.

(** ** JavaScript string built-ins used by the router *)

Module JsString.

(** [s.replace(pat, rep)] for a string [pat] and a replacement without
    [$]: only the first occurrence is replaced. *)
Definition replace (pat rep s : string) : string :=
  match String.index 0 pat s with
  | Some m =>
      String.substring 0 m s +:+ rep +:+
      String.substring (m + String.length pat)
                       (String.length s - (m + String.length pat)) s
  | None => s
  end.

(** [s.split(sep)[0]] for a non-empty separator: the text before the
    first occurrence of [sep], all of [s] when there is none. *)
Definition split_head (sep s : string) : string :=
  match String.index 0 sep s with
  | Some m => String.substring 0 m s
  | None => s
  end.

(** [s || d] on strings: the empty string is falsy. *)
Definition or_else (s d : string) : string :=
  match s with
  | EmptyString => d
  | _ => s
  end.

(** [sep] occurs in [s] at offset [i]. *)
Definition occurs_at (sep s : string) (i : nat) : Prop :=
  String.substring i (String.length sep) s = sep.

End JsString.

(** The catch-all group of a template: an opening parenthesis, a dot, a
    star and a closing parenthesis. *)
Definition catch_all : string :=
  String "(" (String "." (String "*" (String ")" EmptyString))).

(** ** Values, keys and compiled patterns *)

(** What [matches[i]] can be: a captured string, or [undefined] for a
    group that did not take part or an index past the end. *)
Inductive Value : Type :=
  | VString (s : string)
  | VUndefined.

#[global] Instance Value_eq_dec : EqDecision Value.
Proof. solve_decision. Defined.

(** [Key] of path-to-regexp; the router reads [name] only. *)
Record Key : Type := { name : string }.

(** A [RegExp] without global or sticky flag, given by its [exec]:
    [None] is JavaScript's [null], [Some ms] the match array. *)
Record RegExp : Type := { exec : string → option (list Value) }.

Definition test (re : RegExp) (url : string) : bool :=
  match exec re url with
  | Some _ => true
  | None => false
  end.

(** [matches[i]], [undefined] out of range. *)
Definition array_get (matches : list Value) (i : nat) : Value :=
  match matches !! i with
  | Some v => v
  | None => VUndefined
  end.

(** [obj[name] = v] on an object made by an object literal, for a value
    that is a string or [undefined].  The assignment creates or
    overwrites an own property, under every name but one: the name of
    the accessor that the object inherits from [Object.prototype],
    whose setter ignores a value that is neither an object nor [null]
    and stores nothing. *)
Definition set_property (nm : string) (v : Value) (obj : gmap string Value) :
    gmap string Value :=
  if decide (nm = "__proto__") then obj else <[nm := v]> obj.

(** ** Outcomes and the monad *)

Inductive Exn : Type :=
  | TypeError (msg : string)
  | Error (msg : string).

(** [Stuck] is not a JavaScript outcome: it marks an exhausted recursion
    budget of the dispatch loop (see [handler]). *)
Inductive Res (A : Type) : Type :=
  | Ok (a : A)
  | Throw (e : Exn)
  | Stuck.
Arguments Ok {A} a.
Arguments Throw {A} e.
Arguments Stuck {A}.

Definition ST (S A : Type) : Type := S → Res A * S.

Definition ret {S A} (a : A) : ST S A := λ s, (Ok a, s).

Definition bind {S A B} (m : ST S A) (f : A → ST S B) : ST S B :=
  λ s, match m s with
       | (Ok a, s') => f a s'
       | (Throw e, s') => (Throw e, s')
       | (Stuck, s') => (Stuck, s')
       end.

Definition throw {S A} (e : Exn) : ST S A := λ s, (Throw e, s).

Definition gets {S A} (f : S → A) : ST S A := λ s, (Ok (f s), s).

Definition modify {S} (f : S → S) : ST S unit := λ s, (Ok tt, f s).

(** [try { body } catch (err) { handler }] *)
Definition try_catch {S A} (body : ST S A) (handler : Exn → ST S A) : ST S A :=
  λ s, match body s with
       | (Throw e, s') => handler e s'
       | other => other
       end.

(** An external call that returns or throws, without touching the state. *)
Definition call {S A} (r : Exn + A) : ST S A :=
  match r with
  | inr a => ret a
  | inl e => throw e
  end.

Declare Scope js_scope.
Delimit Scope js_scope with js.
Notation "'let*' x ':=' m 'in' k" := (bind m (λ x, k))
  (at level 10, x name, m at level 100, k at level 200) : js_scope.
Notation "m >> k" := (bind m (λ _, k))
  (at level 100, k at level 200, right associativity) : js_scope.

Section Router.

(** State of the embedding page that the router never looks at. *)
Variable Host : Type.

(** [pathToRegexp(path, keys)]: the matcher together with the keys it
    pushes on [keys], or the exception it throws. *)
Variable pathToRegexp : string → Exn + (RegExp * list Key).

(** [compile(template)(params)]: the concrete path, or the exception
    thrown by either call. *)
Variable compile : string → gmap string Value → Exn + string.

(** The cells reachable from a running handler.  [next] is the cursor
    of the dispatch in progress (the local [let next] of
    [handleRoutes], captured by its [handler] closure). *)
Record World : Type := {
  _lastPath : option string;
  next : nat;
  console_error : list string;
  location_pathname : string;
  location_hash : string;
  location_href : list string;
  host : Host
}.

Definition set_lastPath (p : option string) (w : World) : World :=
  {| _lastPath := p; next := next w; console_error := console_error w;
     location_pathname := location_pathname w;
     location_hash := location_hash w;
     location_href := location_href w; host := host w |}.

Definition set_next (n : nat) (w : World) : World :=
  {| _lastPath := _lastPath w; next := n; console_error := console_error w;
     location_pathname := location_pathname w;
     location_hash := location_hash w;
     location_href := location_href w; host := host w |}.

Definition log_error (msg : string) (w : World) : World :=
  {| _lastPath := _lastPath w; next := next w;
     console_error := console_error w ++ [msg];
     location_pathname := location_pathname w;
     location_hash := location_hash w;
     location_href := location_href w; host := host w |}.

(** [location.href = url]: the navigation request is recorded. *)
Definition assign_href (url : string) (w : World) : World :=
  {| _lastPath := _lastPath w; next := next w; console_error := console_error w;
     location_pathname := location_pathname w;
     location_hash := location_hash w;
     location_href := location_href w ++ [url]; host := host w |}.

Record Context : Type := { params : gmap string Value }.

(** [type Handler = (ctx?: Context, next?: Handler) => void].  The
    continuation is given by what calling it does. *)
Definition Handler : Type :=
  option Context → option (ST World unit) → ST World unit.

Record Route : Type := {
  keys : list Key;
  pattern : RegExp;
  handlers : list Handler;
  base : string
}.

Record Router : Type := {
  _base : string;
  _routes : list Route
}.

(** A method runs on the instance and the world around it. *)
Definition Method (A : Type) : Type := ST (Router * World) A.

Definition lift {A} (m : ST World A) : Method A :=
  λ s, match m (snd s) with (r, w') => (r, (fst s, w')) end.

(** [new Router(base)] *)
Definition new_Router (base0 : string) (w : World) : Router * World :=
  ({| _base := base0; _routes := [] |}, set_lastPath None w).

(** [base(path)] *)
Definition Router_base (path : string) : Method unit :=
  modify (λ s, ({| _base := path; _routes := _routes (fst s) |}, snd s)).

Definition push_route (rt : Route) : Method unit :=
  modify (λ s, ({| _base := _base (fst s);
                   _routes := _routes (fst s) ++ [rt] |}, snd s)).

Definition fullPath_of (this_base path : string) : string :=
  if decide (this_base = "/") then path else this_base +:+ path.

(** [use(path, ...handlers)]; [return this] gives the instance as it
    then is. *)
Definition use (path : string) (hs : list Handler) : Method Router :=
  (let* this_base := gets (λ s, _base (fst s)) in
   let fullPath := fullPath_of this_base path in
   let base0 := JsString.split_head catch_all fullPath in
   try_catch
     (let* pk := call (pathToRegexp fullPath) in
      push_route {| keys := snd pk; pattern := fst pk;
                    handlers := hs; base := base0 |})
     (λ err, lift (modify (log_error ("Route '" +:+ path +:+ "' is invalid.")))) >>
   gets fst)%js.

(** The handler that [find] pushes for a matching route. *)
Definition guard (route : Route) : Handler :=
  λ ctx next,
    match ctx, next with
    | Some ctx, Some next =>
        (let* path := call (compile (base route) (params ctx)) in
         let* last := gets _lastPath in
         if decide (last = Some path) then ret tt
         else (modify (set_lastPath (Some path)) >> next))%js
    | _, _ => ret tt
    end.

(** The [for] loop of [find]: [params[keys[i].name] = matches[++i]]
    for [i] from the given index while keys remain. *)
Fixpoint assign_keys (ks : list Key) (i : nat) (matches : list Value)
    (ps : gmap string Value) : gmap string Value :=
  match ks with
  | [] => ps
  | k :: ks' =>
      assign_keys ks' (S i) matches
        (set_property (name k) (array_get matches (S i)) ps)
  end.

Record Found : Type := {
  found_params : gmap string Value;
  found_handlers : list Handler
}.

(** Body of the [forEach] callback, on the two local variables. *)
Definition find_step (url : string) (acc : Found) (route : Route) : Found :=
  if negb (test (pattern route) url) then acc
  else
    let hs := found_handlers acc ++ [guard route] in
    let ps :=
      match length (keys route) with
      | 0 => found_params acc
      | S _ =>
          match exec (pattern route) url with
          | Some matches => assign_keys (keys route) 0 matches (found_params acc)
          | None => found_params acc
          end
      end in
    {| found_params := ps; found_handlers := hs ++ handlers route |}.

(** [find(url)] *)
Definition find (url : string) : Method Found :=
  (let* routes := gets (λ s, _routes (fst s)) in
   ret (fold_left (find_step url) routes
          {| found_params := ∅; found_handlers := [] |}))%js.

(** The [handler] closure of [handleRoutes]:
    [() => route.handlers[next++]({ params: route.params }, handler)].
    The callee is evaluated first, which advances [next]; calling a
    missing element is a [TypeError].  The closure refers to itself, so
    it is defined by recursion on a budget of nested calls; every call
    advances [next], which no handler can reach, so that
    [length route.handlers] nested calls are all a dispatch can make. *)
Fixpoint handler (route : Found) (fuel : nat) : Handler :=
  λ _ _,
    (let* i := gets next in
     modify (set_next (S i)) >>
     match (found_handlers route !! i : option Handler) with
     | None => throw (TypeError "route.handlers[next++] is not a function")
     | Some h =>
         match fuel with
         | 0 => λ w, (Stuck, w)
         | S fuel' =>
             h (Some {| params := found_params route |})
               (Some (handler route fuel' None None))
         end
     end)%js.

(** [let next = 0; const handler = ...; handler();] *)
Definition dispatch (route : Found) : ST World unit :=
  (modify (set_next 0) >>
   handler route (length (found_handlers route)) None None)%js.

(** [location.hash.replace("#/", "/") || "/"] *)
Definition hash_url (location_hash0 : string) : string :=
  JsString.or_else (JsString.replace "#/" "/" location_hash0) "/".

(** [handleRoutes()] *)
Definition handleRoutes : Method unit :=
  (let* pathname := gets (λ s, location_pathname (snd s)) in
   (if decide (pathname = "/") then ret tt
    else lift (modify (assign_href ("/#" +:+ pathname)))) >>
   let* raw := gets (λ s, location_hash (snd s)) in
   let hash := hash_url raw in
   let* route := find hash in
   if decide (length (found_handlers route) = 0) then ret tt
   else lift (dispatch route))%js.

End Router.

Arguments _lastPath {Host} w.
Arguments next {Host} w.
Arguments console_error {Host} w.
Arguments location_pathname {Host} w.
Arguments location_hash {Host} w.
Arguments location_href {Host} w.
Arguments host {Host} w.
Arguments set_lastPath {Host} p w.
Arguments set_next {Host} n w.
Arguments log_error {Host} msg w.
Arguments assign_href {Host} url w.
Arguments keys {Host} r.
Arguments pattern {Host} r.
Arguments handlers {Host} r.
Arguments base {Host} r.
Arguments _base {Host} r.
Arguments _routes {Host} r.
Arguments found_params {Host} f.
Arguments found_handlers {Host} f.
Arguments lift {Host A} m s.
Arguments new_Router {Host} base0 w.
Arguments Router_base {Host} path s.
Arguments push_route {Host} rt s.
Arguments use {Host} pathToRegexp path hs s.
Arguments guard {Host} compile route ctx next s.
Arguments find_step {Host} compile url acc route.
Arguments find {Host} compile url s.
Arguments handler {Host} route fuel ctx next s.
Arguments dispatch {Host} route s.
Arguments handleRoutes {Host} compile s.

(** ** A small pattern compiler to run the router on

    Enough of path-to-regexp for examples.  A template without a colon
    matches itself.  A template [prefix:name] or [prefix:name/suffix]
    matches [prefix], a value that is not empty and has no slash, and
    the suffix; the value is the one capture group.  A parameter
    without a name is refused. *)

Module Toy.

Definition after (m : nat) (s : string) : string :=
  String.substring m (String.length s - m) s.

Definition has_slash (s : string) : bool :=
  match String.index 0 "/" s with
  | Some _ => true
  | None => false
  end.

Definition pathToRegexp (path : string) : Exn + (RegExp * list Key) :=
  match String.index 0 ":" path with
  | None =>
      inr ({| exec := λ url, if String.eqb url path
                             then Some [VString url] else None |}, [])
  | Some m =>
      let pre := String.substring 0 m path in
      let nm := JsString.split_head "/" (after (S m) path) in
      let suf := after (String.length nm) (after (S m) path) in
      if decide (nm = "") then inl (TypeError "Missing parameter name")
      else
        inr ({| exec := λ url,
                  let len := String.length url - m - String.length suf in
                  let v := String.substring m len url in
                  if String.prefix pre url
                     && (m + String.length suf <? String.length url)
                     && String.eqb (after (m + len) url) suf
                     && negb (has_slash v)
                  then Some [VString url; VString v]
                  else None |},
             [{| name := nm |}])
  end.

Definition compile (template : string) (ps : gmap string Value) : Exn + string :=
  match String.index 0 ":" template with
  | None => inr template
  | Some m =>
      let nm := JsString.split_head "/" (after (S m) template) in
      let suf := after (String.length nm) (after (S m) template) in
      match ps !! nm with
      | Some (VString v) => inr (String.substring 0 m template +:+ v +:+ suf)
      | _ => inl (TypeError "Expected a string")
      end
  end.

Definition world0 : World unit :=
  {| _lastPath := None; next := 0; console_error := [];
     location_pathname := "/"; location_hash := "#/about";
     location_href := []; host := tt |}.

(** [(ctx, next) => next()] *)
Definition pass : Handler unit :=
  λ _ next, match next with Some k => k | None => ret tt end.

(** [() => {}] *)
Definition halt : Handler unit := λ _ _, ret tt.

(** [new Router()] followed by three registrations. *)
Definition state0 : Router unit * World unit :=
  snd (use pathToRegexp "/:id" [halt]
    (snd (use pathToRegexp "/about" [pass]
      (snd (use pathToRegexp "/users/:id" [pass; halt]
         (new_Router "/" world0)))))).

Definition this0 : Router unit := fst state0.
Definition w0 : World unit := snd state0.

Definition route_users : Route unit :=
  {| keys := [{| name := "id" |}];
     pattern := {| exec := λ _, None |};
     handlers := [];
     base := "/users/:id" |}.

Definition world_root : World unit :=
  {| _lastPath := Some "/about"; next := 0; console_error := [];
     location_pathname := "/"; location_hash := "";
     location_href := []; host := tt |}.

Definition ctx42 : Context := {| params := {["id" := VString "42"]} |}.

(** A continuation that leaves a line on the console. *)
Definition probe : ST (World unit) unit := modify (log_error "next").

(** A router with one route, and what [find("/about")] returns on it. *)
Definition state1 : Router unit * World unit :=
  snd (use pathToRegexp "/about" [pass] (new_Router "/" world0)).

Definition found_about : Found unit :=
  match fst (find compile "/about" state1) with
  | Ok res => res
  | _ => {| found_params := ∅; found_handlers := [] |}
  end.

Definition route_about : Route unit :=
  match _routes (fst state1) with
  | rt :: _ => rt
  | [] => route_users
  end.

End Toy.


(** ** Handlers that pass control on

    [invokes_next h ctx w w1]: started in [w] with context [ctx], the
    handler [h] calls its continuation in the world [w1], having left
    the cursor alone, and an exception of the continuation leaves [h]
    as it came.  The continuation is any closure, so that [h] cannot
    meet the condition without calling it. *)
Definition invokes_next {Host} (h : Handler Host) (ctx : Context)
    (w w1 : World Host) : Prop :=
  next w1 = next w ∧
  ∀ (k : ST (World Host) unit) e w2,
    k w1 = (Throw e, w2) →
    ∃ w3, h (Some ctx) (Some k) w = (Throw e, w3) ∧ next w3 = next w2.

(** Every handler of [hs], taken in turn by the dispatch loop from the
    world [w] (whose cursor is the index of the first of them), calls
    its continuation. *)
Fixpoint chain_invokes {Host} (hs : list (Handler Host)) (ctx : Context)
    (w : World Host) : Prop :=
  match hs with
  | [] => True
  | h :: tl =>
      ∃ w1, invokes_next h ctx (set_next (S (next w)) w) w1 ∧
            chain_invokes tl ctx w1
  end.

(** ** The claim of the specification on the url handed to [find]

    The words of the specification: the raw hash with a leading hash
    prefix stripped, the root path when nothing is left. *)

Definition spec_strip_hash_prefix (raw : string) : string :=
  match raw with
  | String "#" rest => rest
  | _ => raw
  end.

Definition spec_hash_url (raw : string) : string :=
  match spec_strip_hash_prefix raw with
  | EmptyString => "/"
  | s => s
  end.

(** [b] is [s] cut before the first occurrence of [sep], all of [s]
    when [sep] does not occur. *)
Definition prefix_before_first (sep s b : string) : Prop :=
  (∃ rest, s = b +:+ sep +:+ rest ∧
           ∀ i, i < String.length b → ¬ JsString.occurs_at sep s i) ∨
  (b = s ∧ ∀ i, ¬ JsString.occurs_at sep s i).

(** ** Handlers that hand over, and handlers that stop

    [tail_calls h ctx w w1]: started in [w], the handler [h] does its
    work, which leaves the world [w1] with the cursor where it was, and
    ends with the call of its continuation. *)
Definition tail_calls {Host} (h : Handler Host) (ctx : Context)
    (w w1 : World Host) : Prop :=
  next w1 = next w ∧
  ∀ k : ST (World Host) unit, h (Some ctx) (Some k) w = k w1.

(** The handlers of [hs], taken in turn by the dispatch loop from the
    world [w], all hand over; the last of them leaves [w_end]. *)
Fixpoint chain_tail_calls {Host} (hs : list (Handler Host)) (ctx : Context)
    (w w_end : World Host) : Prop :=
  match hs with
  | [] => w_end = w
  | h :: tl =>
      ∃ w1, tail_calls h ctx (set_next (S (next w)) w) w1 ∧
            chain_tail_calls tl ctx w1 w_end
  end.

(** Started in [w], the handler [h] ends with [out] whatever its
    continuation is: it does not call it. *)
Definition ignores_next {Host} (h : Handler Host) (ctx : Context)
    (w : World Host) (out : Res unit * World Host) : Prop :=
  ∀ k : ST (World Host) unit, h (Some ctx) (Some k) w = out.

(** A closure that, called with the cursor at [c] or beyond, ends
    within its recursion budget and does not move the cursor back. *)
Definition cursor_safe {Host} (c : nat) (k : ST (World Host) unit) : Prop :=
  ∀ w, c ≤ next w → fst (k w) ≠ Stuck ∧ next w ≤ next (snd (k w)).

(** A handler that has no hold on the cursor: it is as safe as the
    continuation it is given.  The cursor is a local variable of
    [handleRoutes], so every JavaScript handler is of this kind. *)
Definition cursor_blind {Host} (h : Handler Host) : Prop :=
  ∀ c ctx k, cursor_safe c k → cursor_safe c (h (Some ctx) (Some k)).

(** No route of the table has a catch-all group in its base. *)
Definition bases_without_catch_all {Host} (this : Router Host) : Prop :=
  Forall (λ rt, ∀ i, ¬ JsString.occurs_at catch_all (base rt) i) (_routes this).

(** A closure that does not take the last path out of [P]. *)
Definition stays_in {Host} (P : option string → Prop)
    (k : ST (World Host) unit) : Prop :=
  ∀ w, P (_lastPath w) → P (_lastPath (snd (k w))).

(** A handler that does not write the last path: whatever it does to
    it is done by the continuation it calls.  The field is private to
    the class, so the handlers given to [use] are of this kind. *)
Definition lastPath_blind {Host} (h : Handler Host) : Prop :=
  ∀ (P : option string → Prop) ctx k,
    stays_in P k → stays_in P (h (Some ctx) (Some k)).

(** ** Start, stop and redirect *)

Section Navigation.

Variable Host : Type.
Variable compile : string → gmap string Value → Exn + string.

(** The percent-encoding that the URL parser applies to a fragment. *)
Variable fragment_encode : string → string.

(** [location.hash = value]: one leading hash sign of the value is
    dropped and the rest is parsed as the fragment; [location.hash]
    then reads as the empty string when the fragment is empty, as a
    hash sign and the fragment otherwise. *)
Definition assign_hash (value : string) (w : World Host) : World Host :=
  let input := match value with
               | String "#" rest => rest
               | _ => value
               end in
  let fragment := fragment_encode input in
  {| _lastPath := _lastPath w; next := next w; console_error := console_error w;
     location_pathname := location_pathname w;
     location_hash := match fragment with
                      | EmptyString => ""
                      | _ => "#" +:+ fragment
                      end;
     location_href := location_href w; host := host w |}.

(** [redirect(path)].  The [hashchange] event that the browser queues
    when the hash has changed is delivered later, see [on_hashchange]. *)
Definition redirect (path : string) : Method Host unit :=
  lift (modify (assign_hash path)).

(** The router on its page.  [listening] tells whether
    [this.handleRoutes] is a [hashchange] listener of the window: the
    bound function is made once, in the constructor, and a listener
    added again with the same type, callback and capture flag is not
    added twice, so that a flag is all there is to know. *)
Record Page : Type := {
  state : Router Host * World Host;
  listening : bool
}.

Definition on_page {A} (m : Method Host A) : ST Page A :=
  λ p, match m (state p) with
       | (r, s') => (r, {| state := s'; listening := listening p |})
       end.

Definition set_listening (b : bool) (p : Page) : Page :=
  {| state := state p; listening := b |}.

(** [start()] *)
Definition start : ST Page unit :=
  (on_page (handleRoutes compile) >>
   modify (set_listening true))%js.

(** [stop()] *)
Definition stop : ST Page unit :=
  modify (set_listening false).

(** The browser delivers a [hashchange] event to the window. *)
Definition on_hashchange : ST Page unit :=
  λ p, if listening p then on_page (handleRoutes compile) p else (Ok tt, p).

End Navigation.

Arguments assign_hash {Host} fragment_encode value w.
Arguments redirect {Host} fragment_encode path s.
Arguments state {Host} p.
Arguments listening {Host} p.
Arguments on_page {Host A} m p.
Arguments set_listening {Host} b p.
Arguments start {Host} compile p.
Arguments stop {Host} p.
Arguments on_hashchange {Host} compile p.

(** ** More samples for the small compiler *)

Module Sample.

(** [(ctx, next) => { console.error("next"); }] *)
Definition probe_handler : Handler unit := λ _ _, Toy.probe.

(** A router whose one route logs and does not go on. *)
Definition state_log : Router unit * World unit :=
  snd (use Toy.pathToRegexp "/about" [probe_handler]
         (new_Router "/" Toy.world0)).

(** Two routes with a key of the same name, that both accept the url
    of one segment [a] and one segment [b]. *)
Definition state_ab : Router unit * World unit :=
  snd (use Toy.pathToRegexp "/:id/b" [Toy.halt]
    (snd (use Toy.pathToRegexp "/a/:id" [Toy.halt]
       (new_Router "/" Toy.world0)))).

(** One route, with a key of the name that an object does not store. *)
Definition state_proto : Router unit * World unit :=
  snd (use Toy.pathToRegexp "/:__proto__" [Toy.halt]
         (new_Router "/" Toy.world0)).

(** A page that has not started, on the one-route router. *)
Definition page1 : Page unit :=
  {| state := Toy.state1; listening := false |}.

(** A page on the root hash, that no route of [Toy.this0] accepts. *)
Definition page_root : Page unit :=
  {| state := (Toy.this0, Toy.world_root); listening := false |}.

End Sample.

(** ** Strings *)

Lemma substring_whole (s : string) :
  String.substring 0 (String.length s) s = s.
Proof. induction s as [|c s IH]; simpl; [reflexivity | by rewrite IH]. Qed.

Lemma substring_take_length (m : nat) (s : string) :
  String.length (String.substring 0 m s) ≤ m.
Proof.
  revert s. induction m as [|m IH]; intros [|c s]; simpl; try lia.
  specialize (IH s). lia.
Qed.

Lemma substring_nothing (s : string) : String.substring 0 0 s = "".
Proof. by destruct s. Qed.

Lemma append_nil_l (s : string) : "" +:+ s = s.
Proof. reflexivity. Qed.

Lemma append_cons (c : ascii) (s t : string) :
  String c s +:+ t = String c (s +:+ t).
Proof. reflexivity. Qed.

Lemma substring_cut (m n : nat) (s : string) :
  String.length (String.substring m n s) = n →
  s = String.substring 0 m s +:+ String.substring m n s +:+
      String.substring (m + n) (String.length s - (m + n)) s.
Proof.
  revert s n. induction m as [|m IHm]; intros s n.
  - rewrite substring_nothing, append_nil_l. simpl. revert s.
    induction n as [|n IHn]; intros s Hlen.
    + by rewrite substring_nothing, Nat.sub_0_r, append_nil_l, substring_whole.
    + destruct s as [|c s]; simpl in *; [discriminate|].
      rewrite append_cons. f_equal. apply IHn. lia.
  - destruct s as [|c s]; simpl; intros Hlen.
    + destruct n; simpl in *; [reflexivity | discriminate].
    + rewrite append_cons. f_equal. by apply IHm.
Qed.

Lemma split_head_spec (sep s : string) :
  sep ≠ "" → prefix_before_first sep s (JsString.split_head sep s).
Proof.
  intros Hsep. unfold JsString.split_head, prefix_before_first.
  destruct (String.index 0 sep s) as [m|] eqn:Hidx.
  - left.
    pose proof (String.index_correct1 _ _ _ _ Hidx) as Hocc.
    exists (String.substring (m + String.length sep)
              (String.length s - (m + String.length sep)) s).
    split.
    + pose proof (substring_cut m (String.length sep) s) as Hcut.
      rewrite Hocc in Hcut. by apply Hcut.
    + intros i Hi. unfold JsString.occurs_at.
      apply (String.index_correct2 _ _ _ _ Hidx); [lia|].
      pose proof (substring_take_length m s). lia.
  - right. split; [reflexivity|].
    intros i. unfold JsString.occurs_at.
    apply (String.index_correct3 0); [done | done | lia].
Qed.

Lemma replace_leading (rest : string) :
  JsString.replace "#/" "/" ("#/" +:+ rest) = "/" +:+ rest.
Proof.
  change ("#/" +:+ rest) with (String "#" (String "/" rest)).
  change ("/" +:+ rest) with (String "/" rest).
  assert (String.index 0 "#/" (String "#" (String "/" rest)) = Some 0) as Hidx
    by (by destruct rest).
  unfold JsString.replace. rewrite Hidx.
  change (String.substring 0 0 _ +:+ "/" +:+ ?t) with (String "/" t).
  f_equal. simpl. by rewrite Nat.sub_0_r, substring_whole.
Qed.

(** ** Assignment to a property *)

Lemma set_property_other nm v (obj : gmap string Value) n :
  nm ≠ n → set_property nm v obj !! n = obj !! n.
Proof.
  intros Hne. unfold set_property.
  destruct (decide (nm = "__proto__")); [reflexivity|].
  by apply lookup_insert_ne.
Qed.

Lemma set_property_stored nm v (obj : gmap string Value) :
  nm ≠ "__proto__" → set_property nm v obj !! nm = Some v.
Proof.
  intros Hne. unfold set_property.
  destruct (decide (nm = "__proto__")); [done|].
  apply lookup_insert_eq.
Qed.

Lemma set_property_is_Some nm v (obj : gmap string Value) n :
  is_Some (set_property nm v obj !! n) ↔
  is_Some (obj !! n) ∨ (nm = n ∧ n ≠ "__proto__").
Proof.
  unfold set_property. destruct (decide (nm = "__proto__")) as [->|Hnm].
  - split; [tauto|]. intros [?|[<- ?]]; done.
  - rewrite lookup_insert_is_Some.
    destruct (decide (nm = n)) as [<-|]; tauto.
Qed.

(** Unfolds the combinators of the monad. *)
Ltac run_monad :=
  unfold bind, try_catch, gets, call, modify, lift, ret, throw; simpl.

(** ** Properties of the router *)

Section Properties.

Variable Host : Type.
Variable pathToRegexp : string → Exn + (RegExp * list Key).
Variable compile : string → gmap string Value → Exn + string.

Implicit Types (this : Router Host) (w : World Host) (route : Route Host).
Implicit Types (hs : list (Handler Host)) (k : ST (World Host) unit).
Implicit Types (url path : string).

(** *** Registration *)

Lemma use_unfold path hs this w :
  use pathToRegexp path hs (this, w) =
    match pathToRegexp (fullPath_of (_base this) path) with
    | inr (re, ks) =>
        let this' :=
          {| _base := _base this;
             _routes := _routes this ++
               [{| keys := ks; pattern := re; handlers := hs;
                   base := JsString.split_head catch_all
                             (fullPath_of (_base this) path) |}] |} in
        (Ok this', (this', w))
    | inl _ =>
        (Ok this, (this, log_error ("Route '" +:+ path +:+ "' is invalid.") w))
    end.
Proof.
  unfold use, push_route. run_monad.
  destruct (pathToRegexp _) as [e|[re ks]]; reflexivity.
Qed.

(** C8.  [use(path, ...)] hands [pathToRegexp] the template [path] when
    the base of the router is ["/"] and [base + path] otherwise, and
    nothing else decides what it does; the route it stores has for
    [base] that template cut before the first catch-all group, the
    whole template when there is no such group in it. *)
Theorem use_fullPath_and_base path hs this w :
  let fullPath :=
    if decide (_base this = "/") then path else _base this +:+ path in
  ∃ b, prefix_before_first catch_all fullPath b ∧
    use pathToRegexp path hs (this, w) =
      match pathToRegexp fullPath with
      | inr (re, ks) =>
          let this' :=
            {| _base := _base this;
               _routes := _routes this ++
                 [{| keys := ks; pattern := re; handlers := hs; base := b |}] |} in
          (Ok this', (this', w))
      | inl _ =>
          (Ok this, (this, log_error ("Route '" +:+ path +:+ "' is invalid.") w))
      end.
Proof.
  intros fullPath.
  exists (JsString.split_head catch_all fullPath). split.
  - by apply split_head_spec.
  - apply use_unfold.
Qed.

(** The router part of what [use] leaves does not depend on the world. *)
Lemma use_router_independent path hs this w w' :
  fst (snd (use pathToRegexp path hs (this, w))) =
  fst (snd (use pathToRegexp path hs (this, w'))).
Proof.
  rewrite !use_unfold.
  destruct (pathToRegexp _) as [e|[re ks]]; reflexivity.
Qed.

Lemma find_unfold url this w :
  find compile url (this, w) =
    (Ok (fold_left (find_step compile url) (_routes this)
           {| found_params := ∅; found_handlers := [] |}), (this, w)).
Proof. reflexivity. Qed.

(** C5.  When the template of [use(path, ...handlers)] does not compile,
    [use] returns the router and throws nothing, the router is as it
    was, and the only trace is one line more on [console.error], which
    names the path: no other cell of the world has changed.  A
    registration and a resolution made afterwards give what they give
    without the failed call. *)
Theorem use_invalid_template path hs this w e :
  pathToRegexp (fullPath_of (_base this) path) = inl e →
  use pathToRegexp path hs (this, w) =
    (Ok this, (this, log_error ("Route '" +:+ path +:+ "' is invalid.") w)) ∧
  (let w' := snd (snd (use pathToRegexp path hs (this, w))) in
   console_error w' =
     console_error w ++ ["Route '" +:+ path +:+ "' is invalid."] ∧
   _lastPath w' = _lastPath w ∧ next w' = next w ∧
   location_pathname w' = location_pathname w ∧
   location_hash w' = location_hash w ∧
   location_href w' = location_href w ∧ host w' = host w) ∧
  (∀ url, fst (find compile url (snd (use pathToRegexp path hs (this, w)))) =
          fst (find compile url (this, w))) ∧
  (∀ path2 hs2 url,
     fst (find compile url
            (snd (use pathToRegexp path2 hs2
                    (snd (use pathToRegexp path hs (this, w)))))) =
     fst (find compile url (snd (use pathToRegexp path2 hs2 (this, w))))).
Proof.
  intros Hbad.
  assert (use pathToRegexp path hs (this, w) =
    (Ok this, (this, log_error ("Route '" +:+ path +:+ "' is invalid.") w)))
    as Huse by (by rewrite use_unfold, Hbad).
  split; [exact Huse|]. rewrite Huse. simpl. split; [|split].
  - by repeat split.
  - reflexivity.
  - intros path2 hs2 url.
    destruct (use pathToRegexp path2 hs2 (this, log_error _ w))
      as [r1 [this1 w1]] eqn:H1.
    destruct (use pathToRegexp path2 hs2 (this, w)) as [r2 [this2 w2]] eqn:H2.
    pose proof (use_router_independent path2 hs2 this
                  (log_error ("Route '" +:+ path +:+ "' is invalid.") w) w) as Hind.
    rewrite H1, H2 in Hind. simpl in Hind. by subst this2.
Qed.

(** *** Resolution *)

Lemma find_step_handlers url routes (acc : Found Host) :
  found_handlers (fold_left (find_step compile url) routes acc) =
  found_handlers acc ++
  flat_map (λ rt, guard compile rt :: handlers rt)
    (List.filter (λ rt, test (pattern rt) url) routes).
Proof.
  revert acc. induction routes as [|rt routes IH]; intros acc; simpl.
  - by rewrite app_nil_r.
  - rewrite IH. unfold find_step.
    destruct (test (pattern rt) url); simpl; [|reflexivity].
    by rewrite <- !app_assoc.
Qed.

(** C1.  The handlers returned by [find(url)] are, for the routes of the
    table whose pattern accepts [url], taken in table order, the guard
    made for the route followed by the handlers of the route in their
    order; a route whose pattern refuses [url] adds nothing, and no
    route is skipped because an earlier one matched. *)
Theorem find_handlers_in_order url this w :
  ∃ res, fst (find compile url (this, w)) = Ok res ∧
    found_handlers res =
      flat_map (λ rt, guard compile rt :: handlers rt)
        (List.filter (λ rt, test (pattern rt) url) (_routes this)).
Proof.
  rewrite find_unfold. eexists. split; [reflexivity|].
  by rewrite find_step_handlers.
Qed.

Lemma find_step_no_match url (acc : Found Host) route :
  test (pattern route) url = false → find_step compile url acc route = acc.
Proof. intros Hno. unfold find_step. by rewrite Hno. Qed.

Lemma fold_find_step_no_match url routes (acc : Found Host) :
  Forall (λ rt, test (pattern rt) url = false) routes →
  fold_left (find_step compile url) routes acc = acc.
Proof.
  intros Hall.
  induction Hall as [|rt routes Hrt _ IH]; simpl; [reflexivity|].
  by rewrite find_step_no_match.
Qed.

(** C6.  When no pattern of the table accepts [url], [find(url)]
    returns the record of an empty parameter object and an empty
    handler array. *)
Theorem find_no_match url this w :
  Forall (λ rt, test (pattern rt) url = false) (_routes this) →
  fst (find compile url (this, w)) =
    Ok {| found_params := ∅; found_handlers := [] |}.
Proof.
  intros Hall. rewrite find_unfold. simpl. f_equal.
  by apply fold_find_step_no_match.
Qed.

Lemma assign_keys_other ks i matches (ps : gmap string Value) n :
  Forall (λ key', name key' ≠ n) ks →
  assign_keys ks i matches ps !! n = ps !! n.
Proof.
  intros Hks. revert i ps.
  induction Hks as [|key' ks Hkey' _ IH]; intros i ps; simpl; [reflexivity|].
  rewrite IH. by apply set_property_other.
Qed.

Lemma assign_keys_last ks1 key ks2 i matches (ps : gmap string Value) :
  name key ≠ "__proto__" →
  Forall (λ key', name key' ≠ name key) ks2 →
  assign_keys (ks1 ++ key :: ks2) i matches ps !! name key =
    Some (array_get matches (S (i + length ks1))).
Proof.
  intros Hname Hks2. revert i ps.
  induction ks1 as [|key1 ks1 IH]; intros i ps; simpl.
  - rewrite assign_keys_other by done.
    rewrite Nat.add_0_r. by apply set_property_stored.
  - rewrite IH. do 3 f_equal. lia.
Qed.

Lemma find_step_params_other url (acc : Found Host) route n :
  (test (pattern route) url = true → Forall (λ key', name key' ≠ n) (keys route)) →
  found_params (find_step compile url acc route) !! n = found_params acc !! n.
Proof.
  intros Hkeys. unfold find_step.
  destruct (test (pattern route) url); simpl; [|reflexivity].
  destruct (length (keys route)); [reflexivity|].
  destruct (exec (pattern route) url); [|reflexivity].
  apply assign_keys_other. by apply Hkeys.
Qed.

Lemma fold_find_step_params_other url routes (acc : Found Host) n :
  Forall (λ rt, test (pattern rt) url = true →
                Forall (λ key', name key' ≠ n) (keys rt)) routes →
  found_params (fold_left (find_step compile url) routes acc) !! n =
  found_params acc !! n.
Proof.
  intros Hall. revert acc.
  induction Hall as [|rt routes Hrt _ IH]; intros acc; simpl; [reflexivity|].
  rewrite IH. by apply find_step_params_other.
Qed.

(** X16.  A route that matches [url] writes, for its keys in order, the
    capture group of the same rank, under every name that the object
    stores; what [find(url).params] holds under such a name is the
    group of the last key of that name in the last matching route that
    declares it. *)
Theorem find_params_last_writer url this w rs1 r rs2 ks1 key ks2 matches :
  _routes this = rs1 ++ r :: rs2 →
  exec (pattern r) url = Some matches →
  keys r = ks1 ++ key :: ks2 →
  name key ≠ "__proto__" →
  Forall (λ key', name key' ≠ name key) ks2 →
  Forall (λ rt, test (pattern rt) url = true →
                Forall (λ key', name key' ≠ name key) (keys rt)) rs2 →
  ∃ res, fst (find compile url (this, w)) = Ok res ∧
    found_params res !! name key = Some (array_get matches (S (length ks1))).
Proof.
  intros Hroutes Hexec Hkeys Hname Hks2 Hrs2.
  rewrite find_unfold. eexists. split; [reflexivity|].
  rewrite Hroutes, fold_left_app. simpl.
  rewrite fold_find_step_params_other by done.
  unfold find_step, test. rewrite Hexec, Hkeys. simpl.
  rewrite length_app. simpl. rewrite Nat.add_succ_r.
  by rewrite assign_keys_last.
Qed.

(** *** The guard *)

Lemma guard_unfold route (ctx : Context) k w :
  guard compile route (Some ctx) (Some k) w =
    match compile (base route) (params ctx) with
    | inl e => (Throw e, w)
    | inr path =>
        if decide (_lastPath w = Some path) then (Ok tt, w)
        else k (set_lastPath (Some path) w)
    end.
Proof.
  unfold guard, bind, call, gets, modify, ret, throw.
  destruct (compile _ _) as [e|path]; [reflexivity|].
  destruct (decide (_lastPath w = Some path)); [reflexivity|].
  by destruct (k _) as [[a|e|] w'].
Qed.

(** C2.  Called with a context and a continuation, the guard of a route
    renders the base of the route with the parameters of the context.
    When the path obtained is not the last path, the guard stores it as
    the last path and calls the continuation, once and as its last act;
    when it is the last path, the guard returns without calling
    anything and without writing anything. *)
Theorem guard_compares_with_last_path route (ctx : Context) k w path :
  compile (base route) (params ctx) = inr path →
  (_lastPath w ≠ Some path →
     guard compile route (Some ctx) (Some k) w =
       k (set_lastPath (Some path) w) ∧
     _lastPath (set_lastPath (Some path) w) = Some path) ∧
  (_lastPath w = Some path →
     guard compile route (Some ctx) (Some k) w = (Ok tt, w)).
Proof.
  intros Hpath. rewrite guard_unfold, Hpath.
  destruct (decide (_lastPath w = Some path)); split; intros H; done.
Qed.

(** C3.  Two calls in a row of a guard, with contexts that render the
    same path, which is not yet the last path: the first call is the
    call of its continuation in a world where the last path is that
    path; in any world where the last path is still that path, the
    second call returns at once and touches nothing, whatever
    continuation it was given. *)
Theorem guard_twice route (ctx1 ctx2 : Context) k1 w path :
  compile (base route) (params ctx1) = inr path →
  compile (base route) (params ctx2) = inr path →
  _lastPath w ≠ Some path →
  guard compile route (Some ctx1) (Some k1) w =
    k1 (set_lastPath (Some path) w) ∧
  _lastPath (set_lastPath (Some path) w) = Some path ∧
  (∀ w1, _lastPath w1 = Some path →
         ∀ k2, guard compile route (Some ctx2) (Some k2) w1 = (Ok tt, w1)).
Proof.
  intros Hp1 Hp2 Hlast. split; [|split; [reflexivity|]].
  - rewrite guard_unfold, Hp1. by destruct (decide _).
  - intros w1 Hw1 k2. rewrite guard_unfold, Hp2. by destruct (decide _).
Qed.

(** *** The dispatch loop *)

Lemma handler_unfold (found : Found Host) fuel oc ok w :
  handler found fuel oc ok w =
    match (found_handlers found !! next w : option (Handler Host)) with
    | None =>
        (Throw (TypeError "route.handlers[next++] is not a function"),
         set_next (S (next w)) w)
    | Some h =>
        match fuel with
        | 0 => (Stuck, set_next (S (next w)) w)
        | S fuel' =>
            h (Some {| params := found_params found |})
              (Some (handler found fuel' None None))
              (set_next (S (next w)) w)
        end
    end.
Proof.
  destruct fuel; unfold handler, bind, gets, modify, throw; simpl.
  - by destruct (found_handlers found !! next w).
  - destruct (found_handlers found !! next w) as [h|]; [|reflexivity].
    by destruct (h _ _ _) as [[a|e|] w'].
Qed.

Lemma handler_runs_off_the_end (found : Found Host) pre suffix :
  found_handlers found = pre ++ suffix →
  ∀ fuel w,
    length suffix ≤ fuel →
    next w = length pre →
    chain_invokes suffix {| params := found_params found |} w →
    ∃ w', handler found fuel None None w =
            (Throw (TypeError "route.handlers[next++] is not a function"), w') ∧
          next w' = S (length (found_handlers found)).
Proof.
  revert pre. induction suffix as [|h tl IH]; intros pre Hsplit fuel w Hfuel Hnext Hchain.
  - rewrite handler_unfold, Hnext, Hsplit, app_nil_r.
    rewrite lookup_ge_None_2 by lia.
    eexists. split; [reflexivity|]. reflexivity.
  - rewrite handler_unfold, Hnext, Hsplit.
    rewrite list_lookup_middle by done.
    destruct fuel as [|fuel]; [simpl in Hfuel; lia|].
    destruct Hchain as (w1 & [Hcur Hcall] & Htl).
    destruct (IH (pre ++ [h])) with (fuel := fuel) (w := w1) as (w2 & Hrun & Hend).
    + by rewrite <- app_assoc.
    + simpl in Hfuel. lia.
    + rewrite Hcur, length_app. simpl. lia.
    + exact Htl.
    + rewrite <- Hnext, <- Hsplit.
      destruct (Hcall _ _ _ Hrun) as (w3 & Hh & Hw3).
      exists w3. split; [exact Hh | congruence].
Qed.

Lemma guard_invokes_next route (ctx : Context) w path :
  compile (base route) (params ctx) = inr path →
  _lastPath w ≠ Some path →
  invokes_next (guard compile route) ctx w (set_lastPath (Some path) w).
Proof.
  intros Hpath Hlast. split; [reflexivity|].
  intros k e w2 Hk. exists w2. split; [|reflexivity].
  rewrite guard_unfold, Hpath. by destruct (decide _).
Qed.

(** C10.  The loop of [handleRoutes] has no last step of its own and
    does not test its index: when each of the [n] resolved handlers
    calls its continuation, the loop reads the element of index [n],
    which the array does not have, and the call of it ends the dispatch
    with a [TypeError], the index having moved to [n + 1]. *)
Theorem dispatch_runs_off_the_end (found : Found Host) w :
  found_handlers found ≠ [] →
  chain_invokes (found_handlers found) {| params := found_params found |}
    (set_next 0 w) →
  found_handlers found !! length (found_handlers found) = None ∧
  ∃ w', dispatch found w =
          (Throw (TypeError "route.handlers[next++] is not a function"), w') ∧
        next w' = S (length (found_handlers found)).
Proof.
  intros _ Hchain. split; [by apply lookup_ge_None_2|].
  unfold dispatch, bind, modify.
  destruct (handler_runs_off_the_end found [] (found_handlers found) eq_refl
              (length (found_handlers found)) (set_next 0 w))
    as (w' & Hrun & Hend); [lia | reflexivity | exact Hchain |].
  exists w'. by rewrite Hrun.
Qed.

Lemma handleRoutes_unfold this w :
  handleRoutes compile (this, w) =
    let w1 := if decide (location_pathname w = "/") then w
              else assign_href ("/#" +:+ location_pathname w) w in
    let found := fold_left (find_step compile (hash_url (location_hash w)))
                   (_routes this) {| found_params := ∅; found_handlers := [] |} in
    if decide (length (found_handlers found) = 0) then (Ok tt, (this, w1))
    else (fst (dispatch found w1), (this, snd (dispatch found w1))).
Proof.
  unfold handleRoutes, find. run_monad.
  destruct (decide (location_pathname w = "/")); simpl;
    destruct (decide (length _ = 0)); simpl; try reflexivity;
    by destruct (dispatch _ _) as [[a|err|] w'].
Qed.

(** The same on [handleRoutes] itself, for a page already on a hash
    route: with a handler to run, the call ends with the [TypeError]. *)
Lemma handleRoutes_runs_off_the_end this w (found : Found Host) :
  location_pathname w = "/" →
  fst (find compile (hash_url (location_hash w)) (this, w)) = Ok found →
  found_handlers found ≠ [] →
  chain_invokes (found_handlers found) {| params := found_params found |}
    (set_next 0 w) →
  fst (handleRoutes compile (this, w)) =
    Throw (TypeError "route.handlers[next++] is not a function").
Proof.
  intros Hroot Hfind Hsome Hchain.
  rewrite find_unfold in Hfind. simpl in Hfind. injection Hfind as Hfound.
  rewrite handleRoutes_unfold. cbv zeta. rewrite Hfound.
  destruct (decide (location_pathname w = "/")); [|done].
  destruct (decide (length (found_handlers found) = 0)) as [Hlen|_].
  - by destruct (found_handlers found).
  - destruct (handler_runs_off_the_end found [] (found_handlers found) eq_refl
                (length (found_handlers found)) (set_next 0 w))
      as (w' & Hrun & _); [lia | reflexivity | exact Hchain |].
    unfold dispatch, bind, modify. by rewrite Hrun.
Qed.

(** *** What writes the last path *)

Lemma guard_stays_in route (P : option string → Prop) (ctx : Context) k :
  (∀ path, compile (base route) (params ctx) = inr path → P (Some path)) →
  stays_in P k →
  stays_in P (guard compile route (Some ctx) (Some k)).
Proof.
  intros HP Hk w Hw. rewrite guard_unfold.
  destruct (compile _ _) as [e|path] eqn:Hpath; [exact Hw|].
  destruct (decide (_lastPath w = Some path)); [exact Hw|].
  apply Hk. simpl. by apply HP.
Qed.

Lemma handler_stays_in (found : Found Host) (P : option string → Prop) fuel :
  Forall (λ h : Handler Host, ∀ k,
            stays_in P k →
            stays_in P (h (Some {| params := found_params found |}) (Some k)))
    (found_handlers found) →
  stays_in P (handler found fuel None None).
Proof.
  intros Hall. induction fuel as [|fuel IH]; intros w Hw;
    rewrite handler_unfold;
    destruct (found_handlers found !! next w) as [h|] eqn:Hh;
    try exact Hw.
  by apply (Forall_lookup_1 _ _ _ _ Hall Hh _ IH).
Qed.

Lemma dispatch_stays_in (found : Found Host) (P : option string → Prop) :
  Forall (λ h : Handler Host, ∀ k,
            stays_in P k →
            stays_in P (h (Some {| params := found_params found |}) (Some k)))
    (found_handlers found) →
  stays_in P (dispatch found).
Proof.
  intros Hall w Hw.
  pose proof (handler_stays_in found P (length (found_handlers found)) Hall
                (set_next 0 w) Hw) as Hrun.
  unfold dispatch, bind, modify.
  by destruct (handler _ _ _ _ _) as [[a|e|] w'].
Qed.

Lemma Forall_resolved (Q : Handler Host → Prop) url (routes : list (Route Host)) :
  (∀ rt, rt ∈ routes → test (pattern rt) url = true →
         Q (guard compile rt) ∧ Forall Q (handlers rt)) →
  Forall Q (flat_map (λ rt, guard compile rt :: handlers rt)
              (List.filter (λ rt, test (pattern rt) url) routes)).
Proof.
  induction routes as [|rt routes IH]; intros Hall; simpl; [constructor|].
  assert (Forall Q (flat_map (λ rt, guard compile rt :: handlers rt)
            (List.filter (λ rt, test (pattern rt) url) routes))) as Htl.
  { apply IH. intros rt' Hin. apply Hall. by apply elem_of_cons; right. }
  destruct (test (pattern rt) url) eqn:Htest; [|exact Htl]. simpl.
  destruct (Hall rt) as [Hg Hhs]; [by apply elem_of_cons; left | done |].
  constructor; [exact Hg|]. apply Forall_app. by split.
Qed.

(** C9.  [find(url)] returns with the router and the world as they
    were: same table, same base, same last path.  Neither [use] nor
    [base] writes the last path, and a dispatch that resolves to no
    handler, hence runs no guard, leaves it too.  A dispatch that runs
    handlers, none of those given to [use] writing the last path
    itself, ends with the last path it started with or with a path
    that the guard of a route accepting the hash has rendered and
    stored: nothing but a guard writes it. *)
Theorem find_changes_nothing url path hs this w :
  snd (find compile url (this, w)) = (this, w) ∧
  _lastPath (snd (snd (use pathToRegexp path hs (this, w)))) = _lastPath w ∧
  _lastPath (snd (snd (Router_base path (this, w)))) = _lastPath w ∧
  (Forall (λ rt, test (pattern rt) (hash_url (location_hash w)) = false)
     (_routes this) →
   fst (snd (handleRoutes compile (this, w))) = this ∧
   _lastPath (snd (snd (handleRoutes compile (this, w)))) = _lastPath w) ∧
  (Forall (λ rt, Forall lastPath_blind (handlers rt)) (_routes this) →
   ∀ found,
     fst (find compile (hash_url (location_hash w)) (this, w)) = Ok found →
     fst (snd (handleRoutes compile (this, w))) = this ∧
     (_lastPath (snd (snd (handleRoutes compile (this, w)))) = _lastPath w ∨
      ∃ rt p,
        rt ∈ _routes this ∧
        test (pattern rt) (hash_url (location_hash w)) = true ∧
        compile (base rt) (found_params found) = inr p ∧
        _lastPath (snd (snd (handleRoutes compile (this, w)))) = Some p)).
Proof.
  split; [reflexivity|]. split; [|split; [reflexivity|split]].
  - rewrite use_unfold. by destruct (pathToRegexp _) as [e|[re ks]].
  - intros Hall.
    pose proof (fold_find_step_no_match (hash_url (location_hash w))
                  (_routes this) {| found_params := ∅; found_handlers := [] |}
                  Hall) as Hfind.
    unfold handleRoutes, find. run_monad.
    destruct (decide (location_pathname w = "/")); simpl;
      rewrite Hfind; by simpl.
  - intros Hblind found Hfind.
    rewrite find_unfold in Hfind. simpl in Hfind. injection Hfind as Hfound.
    rewrite handleRoutes_unfold. cbv zeta. rewrite Hfound.
    set (w0 := if decide (location_pathname w = "/") then w
               else assign_href ("/#" +:+ location_pathname w) w).
    assert (_lastPath w0 = _lastPath w) as Hw0.
    { unfold w0. by destruct (decide _). }
    destruct (decide (length (found_handlers found) = 0)); simpl.
    { split; [reflexivity|]. by left. }
    split; [reflexivity|].
    set (P := λ last : option string,
           last = _lastPath w ∨
           ∃ rt p, rt ∈ _routes this ∧
                   test (pattern rt) (hash_url (location_hash w)) = true ∧
                   compile (base rt) (found_params found) = inr p ∧
                   last = Some p).
    apply (dispatch_stays_in found P); [|by left].
    rewrite <- Hfound at 1. rewrite find_step_handlers. simpl.
    apply Forall_resolved. intros rt Hin Htest. split.
    + intros k Hk. apply guard_stays_in; [|exact Hk].
      intros p Hp. right. by exists rt, p.
    + rewrite Forall_forall in Hblind.
      apply (Forall_impl _ _ _ (Hblind rt Hin)).
      intros h Hh k Hk. by apply Hh.
Qed.

(** *** The url of a dispatch *)

(** C7, as the code has it.  For a raw hash that is empty or starts
    with a hash sign and a slash, [handleRoutes] resolves the hash
    without its hash sign, and the root path when the hash is empty. *)
Theorem hash_url_of_router_hash (raw : string) :
  raw = "" ∨ (∃ rest, raw = "#/" +:+ rest) →
  hash_url raw = spec_hash_url raw.
Proof.
  intros [->|[rest ->]]; [reflexivity|].
  unfold hash_url. by rewrite replace_leading.
Qed.

End Properties.

(** ** The theorems at work on the small compiler *)

Lemma hash_url_counterexample :
  hash_url "#about" ≠ spec_hash_url "#about" ∧
  hash_url "#a#/b" = "#a/b" ∧
  hash_url "#a#/b" ≠ spec_hash_url "#a#/b".
Proof. by vm_compute. Qed.

Lemma hash_url_of_router_hash_witness :
  hash_url "#/about" = "/about".
Proof.
  apply (hash_url_of_router_hash "#/about").
  right. by exists "about".
Defined.

Lemma find_no_match_witness :
  fst (find Toy.compile "/" (Toy.this0, Toy.w0)) =
    Ok {| found_params := ∅; found_handlers := [] |}.
Proof.
  apply (find_no_match unit Toy.compile "/" Toy.this0 Toy.w0).
  repeat constructor.
Defined.

Lemma pass_invokes_next (ctx : Context) (w : World unit) :
  invokes_next Toy.pass ctx w w.
Proof.
  split; [reflexivity|]. intros k e w2 Hk. by exists w2.
Qed.

Lemma guard_compares_with_last_path_witness :
  guard Toy.compile Toy.route_users (Some Toy.ctx42) (Some Toy.probe) Toy.world0 =
    (Ok tt, log_error "next" (set_lastPath (Some "/users/42") Toy.world0)) ∧
  guard Toy.compile Toy.route_users (Some Toy.ctx42) (Some Toy.probe)
    (set_lastPath (Some "/users/42") Toy.world0) =
    (Ok tt, set_lastPath (Some "/users/42") Toy.world0).
Proof.
  split.
  - apply (guard_compares_with_last_path unit Toy.compile Toy.route_users
             Toy.ctx42 Toy.probe Toy.world0 "/users/42"); [reflexivity|].
    simpl. discriminate.
  - apply (guard_compares_with_last_path unit Toy.compile Toy.route_users
             Toy.ctx42 Toy.probe (set_lastPath (Some "/users/42") Toy.world0)
             "/users/42"); reflexivity.
Defined.

Lemma guard_twice_witness :
  guard Toy.compile Toy.route_users (Some Toy.ctx42) (Some Toy.probe) Toy.world0 =
    (Ok tt, log_error "next" (set_lastPath (Some "/users/42") Toy.world0)) ∧
  guard Toy.compile Toy.route_users (Some Toy.ctx42) (Some Toy.probe)
    (log_error "next" (set_lastPath (Some "/users/42") Toy.world0)) =
    (Ok tt, log_error "next" (set_lastPath (Some "/users/42") Toy.world0)).
Proof.
  pose proof (guard_twice unit Toy.compile Toy.route_users Toy.ctx42 Toy.ctx42
                Toy.probe Toy.world0 "/users/42" eq_refl eq_refl) as Htwice.
  destruct Htwice as (Hfirst & _ & Hsecond); [simpl; discriminate|].
  split; [exact Hfirst|].
  apply Hsecond; reflexivity.
Defined.

Lemma find_params_last_writer_witness :
  ∃ res, fst (find Toy.compile "/a/b" Sample.state_ab) = Ok res ∧
    found_params res !! "id" = Some (VString "a").
Proof.
  apply (find_params_last_writer unit Toy.compile "/a/b"
           (fst Sample.state_ab) (snd Sample.state_ab)
           (take 1 (_routes (fst Sample.state_ab)))
           (default Toy.route_users (_routes (fst Sample.state_ab) !! 1)) []
           [] {| name := "id" |} []
           [VString "/a/b"; VString "a"]);
    try reflexivity; try constructor.
  simpl. discriminate.
Defined.

(** C4, where the code departs from it.  A route registered for the
    template of one parameter named like the accessor of
    [Object.prototype] accepts the url of one segment and captures the
    segment for its one key; the parameters that [find] returns for
    that url have nothing under that name, and are empty: the value
    extracted for the key has not been written. *)
Theorem find_params_drops_proto :
  ∃ r, _routes (fst Sample.state_proto) = [r] ∧
       keys r = [{| name := "__proto__" |}] ∧
       exec (pattern r) "/x" = Some [VString "/x"; VString "x"] ∧
       ∃ res, fst (find Toy.compile "/x" Sample.state_proto) = Ok res ∧
              found_params res !! "__proto__" = None ∧
              found_params res = ∅.
Proof.
  eexists. split; [reflexivity|]. split; [reflexivity|].
  split; [reflexivity|]. eexists. split; [reflexivity|].
  split; reflexivity.
Qed.

Lemma use_invalid_template_witness :
  use Toy.pathToRegexp "/:" [Toy.halt] (Toy.this0, Toy.w0) =
    (Ok Toy.this0, (Toy.this0, log_error "Route '/:' is invalid." Toy.w0)) ∧
  console_error (snd (snd (use Toy.pathToRegexp "/:" [Toy.halt]
                             (Toy.this0, Toy.w0)))) =
    ["Route '/:' is invalid."] ∧
  fst (find Toy.compile "/about"
         (snd (use Toy.pathToRegexp "/about" [Toy.pass]
                 (snd (use Toy.pathToRegexp "/:" [Toy.halt]
                         (Toy.this0, Toy.w0)))))) =
  fst (find Toy.compile "/about"
         (snd (use Toy.pathToRegexp "/about" [Toy.pass] (Toy.this0, Toy.w0)))).
Proof.
  destruct (use_invalid_template unit Toy.pathToRegexp Toy.compile "/:"
              [Toy.halt] Toy.this0 Toy.w0 (TypeError "Missing parameter name")
              eq_refl) as (Huse & (Hconsole & _) & _ & Hafter).
  split; [exact Huse|]. split; [exact Hconsole | apply Hafter].
Defined.

Lemma pass_lastPath_blind : lastPath_blind Toy.pass.
Proof. intros P ctx k Hk. exact Hk. Qed.

Lemma halt_lastPath_blind : lastPath_blind Toy.halt.
Proof. intros P ctx k Hk w Hw. exact Hw. Qed.

Lemma find_changes_nothing_witness :
  snd (find Toy.compile "/users/42" (Toy.this0, Toy.w0)) = (Toy.this0, Toy.w0) ∧
  (fst (snd (handleRoutes Toy.compile (Toy.this0, Toy.world_root))) = Toy.this0 ∧
   _lastPath (snd (snd (handleRoutes Toy.compile (Toy.this0, Toy.world_root)))) =
     Some "/about") ∧
  (_lastPath (snd (snd (handleRoutes Toy.compile Toy.state1))) = None ∨
   ∃ rt p, rt ∈ _routes (fst Toy.state1) ∧
           test (pattern rt) "/about" = true ∧
           Toy.compile (base rt) ∅ = inr p ∧
           _lastPath (snd (snd (handleRoutes Toy.compile Toy.state1))) = Some p).
Proof.
  split; [|split].
  - apply (find_changes_nothing unit Toy.pathToRegexp Toy.compile
             "/users/42" "/x" [] Toy.this0 Toy.w0).
  - apply (find_changes_nothing unit Toy.pathToRegexp Toy.compile
             "/" "/x" [] Toy.this0 Toy.world_root).
    repeat constructor.
  - destruct (find_changes_nothing unit Toy.pathToRegexp Toy.compile
                "/" "/x" [] (fst Toy.state1) (snd Toy.state1))
      as (_ & _ & _ & _ & Hdispatch).
    destruct (Hdispatch ltac:(repeat constructor; apply pass_lastPath_blind)
                Toy.found_about eq_refl) as [_ Hlast].
    exact Hlast.
Defined.

Lemma found_about_handlers :
  found_handlers Toy.found_about = [guard Toy.compile Toy.route_about; Toy.pass].
Proof. reflexivity. Qed.

Lemma dispatch_runs_off_the_end_witness :
  found_handlers Toy.found_about !! 2 = None ∧
  ∃ w', dispatch Toy.found_about Toy.world0 =
          (Throw (TypeError "route.handlers[next++] is not a function"), w') ∧
        next w' = 3.
Proof.
  apply (dispatch_runs_off_the_end unit Toy.found_about Toy.world0).
  - rewrite found_about_handlers. discriminate.
  - rewrite found_about_handlers.
    exists (set_lastPath (Some "/about") (set_next 1 Toy.world0)). split.
    + apply (guard_invokes_next unit Toy.compile); [reflexivity|].
      simpl. discriminate.
    + eexists. split; [apply pass_invokes_next | exact I].
Defined.

(** ** Further properties of the router *)

(** *** Strings, continued *)

Lemma substring_of_empty (i n : nat) : String.substring i n "" = "".
Proof. by destruct i, n. Qed.

Lemma substring_beyond (i n : nat) (s : string) :
  String.length s ≤ i → String.substring i n s = "".
Proof.
  revert s. induction i as [|i IH]; intros [|c s] Hlen; simpl in *;
    try lia; try by destruct n.
  apply IH. lia.
Qed.

Lemma substring_cut_nothing (i : nat) (s : string) :
  String.substring i 0 s = "".
Proof.
  revert s. induction i as [|i IH]; intros [|c s]; simpl; try reflexivity.
  apply IH.
Qed.

Lemma substring_of_take (i n m : nat) (s : string) :
  String.length (String.substring i n (String.substring 0 m s)) = n →
  String.substring i n (String.substring 0 m s) = String.substring i n s.
Proof.
  revert s n m. induction i as [|i IHi]; intros s n m.
  - revert s m. induction n as [|n IHn]; intros s m Hlen.
    + by rewrite !substring_nothing.
    + destruct s as [|c s], m as [|m]; simpl in *; try discriminate.
      f_equal. apply IHn. lia.
  - destruct s as [|c s]; intros Hlen.
    + destruct m; reflexivity.
    + destruct m as [|m].
      * rewrite substring_nothing, substring_of_empty in *. simpl in Hlen.
        subst n. symmetry. apply (substring_cut_nothing (S i)).
      * simpl in *. by apply IHi.
Qed.

Lemma occurs_at_within (sep s : string) (i : nat) :
  sep ≠ "" → JsString.occurs_at sep s i → i < String.length s.
Proof.
  intros Hsep Hocc. unfold JsString.occurs_at in Hocc.
  destruct (decide (i < String.length s)) as [|Hge]; [done|].
  rewrite substring_beyond in Hocc by lia. by subst sep.
Qed.

(** The text before the first occurrence of [sep] has no [sep] in it. *)
Lemma split_head_without_sep (sep s : string) (i : nat) :
  sep ≠ "" → ¬ JsString.occurs_at sep (JsString.split_head sep s) i.
Proof.
  intros Hsep Hocc. unfold JsString.split_head in Hocc.
  destruct (String.index 0 sep s) as [m|] eqn:Hidx.
  - pose proof (occurs_at_within _ _ _ Hsep Hocc) as Hi.
    pose proof (substring_take_length m s) as Hm.
    unfold JsString.occurs_at in Hocc.
    rewrite substring_of_take in Hocc by (by rewrite Hocc).
    by apply (String.index_correct2 _ _ _ _ Hidx i); [lia | lia |].
  - unfold JsString.occurs_at in Hocc.
    by apply (String.index_correct3 0 i _ _ Hidx); [| lia |].
Qed.

Lemma append_not_empty (a b : string) (c : ascii) :
  JsString.or_else (a +:+ String c b) "/" = a +:+ String c b.
Proof. by destruct a. Qed.

(** [s.replace(pat, rep)] cuts [s] around the first [pat] and puts
    [rep] in its place; without a [pat], [s] comes back. *)
Lemma replace_first_occurrence (pat rep s : string) :
  pat ≠ "" →
  (∃ a b, s = a +:+ pat +:+ b ∧
          (∀ i, i < String.length a → ¬ JsString.occurs_at pat s i) ∧
          JsString.replace pat rep s = a +:+ rep +:+ b) ∨
  ((∀ i, ¬ JsString.occurs_at pat s i) ∧ JsString.replace pat rep s = s).
Proof.
  intros Hpat. unfold JsString.replace.
  destruct (String.index 0 pat s) as [m|] eqn:Hidx.
  - left.
    pose proof (String.index_correct1 _ _ _ _ Hidx) as Hocc.
    exists (String.substring 0 m s),
           (String.substring (m + String.length pat)
              (String.length s - (m + String.length pat)) s).
    split; [|split; [|reflexivity]].
    + pose proof (substring_cut m (String.length pat) s) as Hcut.
      rewrite Hocc in Hcut. by apply Hcut.
    + intros i Hi. unfold JsString.occurs_at.
      apply (String.index_correct2 _ _ _ _ Hidx); [lia|].
      pose proof (substring_take_length m s). lia.
  - right. split; [|reflexivity].
    intros i. unfold JsString.occurs_at.
    apply (String.index_correct3 0); [done | done | lia].
Qed.

(** X9.  The url that [handleRoutes] resolves is never empty.  It is
    the hash with its first hash-sign-and-slash, wherever that is,
    turned into a slash; a hash without one is resolved as it stands,
    and the empty hash as the root path. *)
Theorem hash_url_first_occurrence (raw : string) :
  hash_url raw ≠ "" ∧
  ((∃ a b, raw = a +:+ "#/" +:+ b ∧
           (∀ i, i < String.length a → ¬ JsString.occurs_at "#/" raw i) ∧
           hash_url raw = a +:+ "/" +:+ b) ∨
   ((∀ i, ¬ JsString.occurs_at "#/" raw i) ∧
    hash_url raw = if decide (raw = "") then "/" else raw)).
Proof.
  unfold hash_url.
  destruct (replace_first_occurrence "#/" "/" raw) as
    [(a & b & Hraw & Hfirst & Hrep)|[Hnone Hrep]]; [done| |].
  - rewrite Hrep.
    change (a +:+ "/" +:+ b) with (a +:+ String "/" b).
    rewrite append_not_empty. split.
    + by destruct a.
    + left. by exists a, b.
  - rewrite Hrep. split.
    + by destruct raw.
    + right. split; [exact Hnone|]. by destruct raw.
Qed.

Section MoreProperties.

Variable Host : Type.
Variable pathToRegexp : string → Exn + (RegExp * list Key).
Variable compile : string → gmap string Value → Exn + string.
Variable fragment_encode : string → string.

Implicit Types (this : Router Host) (w : World Host) (route rt : Route Host).
Implicit Types (hs : list (Handler Host)) (k : ST (World Host) unit).
Implicit Types (url path : string) (found : Found Host).

(** *** Registration and resolution together *)

(** X10.  A fresh router has no route with a catch-all group in its
    base, and [use] and [base] keep the table that way: what [use]
    stores as base is cut before the first catch-all group. *)
Theorem bases_stay_without_catch_all path hs base0 this w :
  bases_without_catch_all (fst (new_Router base0 w)) ∧
  (bases_without_catch_all this →
   bases_without_catch_all (fst (snd (use pathToRegexp path hs (this, w)))) ∧
   bases_without_catch_all (fst (snd (Router_base path (this, w))))).
Proof.
  split; [constructor|]. intros Hinv. split; [|exact Hinv].
  rewrite use_unfold.
  destruct (pathToRegexp _) as [e|[re ks]]; [exact Hinv|].
  unfold bases_without_catch_all. simpl.
  apply Forall_app. split; [exact Hinv|].
  constructor; [|constructor]. simpl. intros i.
  by apply split_head_without_sep.
Qed.

(** X1.  What a registration adds to a resolution.  After a [use] whose
    template compiles, the table has one more route, at its end.  For a
    url that the new pattern refuses, [find] returns what it returned
    before; for a url that it accepts, the handlers found before come
    first, in the same order, followed by the guard of the new route
    and the handlers given to [use], and a parameter whose name is not
    a key of the new route keeps its value. *)
Theorem find_after_use path hs url this w re ks :
  pathToRegexp (fullPath_of (_base this) path) = inr (re, ks) →
  ∃ rt before after,
    _routes (fst (snd (use pathToRegexp path hs (this, w)))) =
      _routes this ++ [rt] ∧
    keys rt = ks ∧ pattern rt = re ∧ handlers rt = hs ∧
    fst (find compile url (this, w)) = Ok before ∧
    fst (find compile url (snd (use pathToRegexp path hs (this, w)))) = Ok after ∧
    (test re url = false → after = before) ∧
    (test re url = true →
       found_handlers after = found_handlers before ++ guard compile rt :: hs ∧
       ∀ n, Forall (λ key', name key' ≠ n) ks →
            found_params after !! n = found_params before !! n).
Proof.
  intros Hok. rewrite use_unfold, Hok. cbv zeta. cbn [fst snd].
  rewrite !find_unfold. cbn [fst snd _routes].
  eexists. exists (fold_left (find_step compile url) (_routes this)
                     {| found_params := ∅; found_handlers := [] |}).
  eexists. split; [reflexivity|].
  split; [reflexivity|]. split; [reflexivity|]. split; [reflexivity|].
  split; [reflexivity|]. split; [reflexivity|].
  rewrite fold_left_app. simpl. split.
  - intros Hno. by apply find_step_no_match.
  - intros Hyes. split.
    + unfold find_step. simpl. rewrite Hyes. simpl. by rewrite <- app_assoc.
    + intros n Hn. apply find_step_params_other. by intros _.
Qed.

Lemma assign_keys_is_Some ks i matches (ps : gmap string Value) n :
  is_Some (assign_keys ks i matches ps !! n) ↔
  is_Some (ps !! n) ∨
  (n ≠ "__proto__" ∧ Exists (λ key', name key' = n) ks).
Proof.
  revert i ps. induction ks as [|key' ks IH]; intros i ps; simpl.
  - rewrite Exists_nil. tauto.
  - rewrite IH, Exists_cons, set_property_is_Some. tauto.
Qed.

Lemma find_step_is_Some url (acc : Found Host) rt n :
  is_Some (found_params (find_step compile url acc rt) !! n) ↔
  is_Some (found_params acc !! n) ∨
  (n ≠ "__proto__" ∧ test (pattern rt) url = true ∧
   Exists (λ key', name key' = n) (keys rt)).
Proof.
  unfold find_step, test.
  destruct (exec (pattern rt) url) as [matches|]; simpl.
  - destruct (keys rt) as [|key' ks] eqn:Hkeys; simpl.
    + rewrite Exists_nil. tauto.
    + rewrite (assign_keys_is_Some ks), set_property_is_Some, Exists_cons.
      tauto.
  - split; [tauto|]. intros [?|(_ & ? & _)]; done.
Qed.

(** X2.  The names under which [find(url).params] has a value, be it
    [undefined], are the names of the keys of the routes whose pattern
    accepts [url], but for the one name that the object does not store,
    and no other. *)
Theorem find_params_names url this w :
  ∃ res, fst (find compile url (this, w)) = Ok res ∧
    ∀ n, is_Some (found_params res !! n) ↔
         n ≠ "__proto__" ∧
         Exists (λ rt, test (pattern rt) url = true ∧
                       Exists (λ key', name key' = n) (keys rt))
           (_routes this).
Proof.
  rewrite find_unfold. eexists. split; [reflexivity|]. intros n.
  assert (∀ routes (acc : Found Host),
    is_Some (found_params (fold_left (find_step compile url) routes acc) !! n) ↔
    is_Some (found_params acc !! n) ∨
    (n ≠ "__proto__" ∧
     Exists (λ rt, test (pattern rt) url = true ∧
                   Exists (λ key', name key' = n) (keys rt)) routes)) as Hfold.
  { induction routes as [|rt routes IH]; intros acc; simpl.
    - rewrite Exists_nil. tauto.
    - rewrite IH, find_step_is_Some, Exists_cons. tauto. }
  rewrite Hfold. simpl. rewrite lookup_empty.
  split; [intros [[? Hn]|?]; [discriminate | done] | tauto].
Qed.

(** X11.  [base(path)] bears on later registrations only, and is not
    added to the base it replaces: a resolution gives the same before
    and after it, and of two calls in a row the second alone decides
    which template the next [use] compiles. *)
Theorem base_replaces_base b1 b2 path hs url this w :
  fst (find compile url (snd (Router_base b2 (this, w)))) =
    fst (find compile url (this, w)) ∧
  use pathToRegexp path hs (snd (Router_base b2 (snd (Router_base b1 (this, w))))) =
    use pathToRegexp path hs (snd (Router_base b2 (this, w))) ∧
  (b2 ≠ "/" →
   ∀ re ks, pathToRegexp (b2 +:+ path) = inr (re, ks) →
     ∃ rt, _routes (fst (snd (use pathToRegexp path hs
                                (snd (Router_base b2 (this, w)))))) =
             _routes this ++ [rt] ∧
           pattern rt = re ∧ keys rt = ks).
Proof.
  split; [reflexivity|]. split; [reflexivity|].
  intros Hb2 re ks Hok.
  unfold Router_base, modify. simpl. rewrite use_unfold. simpl.
  unfold fullPath_of. destruct (decide (b2 = "/")); [done|].
  rewrite Hok. simpl. by eexists.
Qed.

(** *** The guard and the dispatch loop *)

(** X6.  The guard at its edges.  Called without a context or without a
    continuation it returns at once and touches nothing, whatever the
    base of its route.  When rendering the base throws, the guard
    throws the same, having called nothing and written nothing. *)
Theorem guard_edge_cases route (ctx : Context) k w :
  (∀ oc, guard compile route oc None w = (Ok tt, w)) ∧
  (∀ ok, guard compile route None ok w = (Ok tt, w)) ∧
  (∀ e, compile (base route) (params ctx) = inl e →
        guard compile route (Some ctx) (Some k) w = (Throw e, w)).
Proof.
  split; [|split].
  - by intros [c|].
  - by intros [k'|].
  - intros e He. by rewrite guard_unfold, He.
Qed.

Lemma dispatch_unfold found w :
  dispatch found w =
    handler found (length (found_handlers found)) None None (set_next 0 w).
Proof.
  unfold dispatch, bind, modify.
  by destruct (handler _ _ _ _ _) as [[a|e|] w'].
Qed.

Lemma chain_tail_calls_next hs (ctx : Context) w w_end :
  chain_tail_calls hs ctx w w_end → next w_end = next w + length hs.
Proof.
  revert w. induction hs as [|h tl IH]; intros w; simpl.
  - intros ->. lia.
  - intros (w1 & [Hcur _] & Htl). rewrite (IH _ Htl), Hcur. simpl. lia.
Qed.

Lemma handler_through_prefix found ran pre rest :
  found_handlers found = ran ++ pre ++ rest →
  ∀ fuel w w1,
    next w = length ran →
    chain_tail_calls pre {| params := found_params found |} w w1 →
    handler found (length pre + fuel) None None w =
      handler found fuel None None w1.
Proof.
  revert ran. induction pre as [|h tl IH]; intros ran Hsplit fuel w w1 Hnext Hchain.
  - simpl in Hchain. by subst w1.
  - destruct Hchain as (w' & [Hcur Hcall] & Htl).
    change ((h :: tl) ++ rest) with (h :: tl ++ rest) in Hsplit.
    rewrite handler_unfold, Hnext, Hsplit.
    rewrite list_lookup_middle by done. simpl.
    rewrite <- Hnext, Hcall.
    apply (IH (ran ++ [h])); [by rewrite <- app_assoc | | exact Htl].
    rewrite Hcur, length_app. simpl. lia.
Qed.

Lemma handler_stops_at found pre h post w w1 out :
  found_handlers found = pre ++ h :: post →
  chain_tail_calls pre {| params := found_params found |} (set_next 0 w) w1 →
  ignores_next h {| params := found_params found |}
    (set_next (S (next w1)) w1) out →
  dispatch found w = out.
Proof.
  intros Hsplit Hchain Hstop.
  rewrite dispatch_unfold, Hsplit, length_app. simpl.
  rewrite (handler_through_prefix found [] pre (h :: post) Hsplit
             (S (length post)) (set_next 0 w) w1 eq_refl Hchain).
  pose proof (chain_tail_calls_next _ _ _ _ Hchain) as Hw1. simpl in Hw1.
  rewrite handler_unfold, Hw1, Hsplit.
  rewrite (list_lookup_middle pre post h (length pre) eq_refl).
  rewrite <- Hw1. apply Hstop.
Qed.

(** X3.  A dispatch goes as far as the first handler that does not call
    its continuation.  When the handlers before it each end with the
    call of theirs, the dispatch ends as that handler ends, by return
    or by exception, and the handlers after it are not run: they have
    no part in the outcome. *)
Theorem dispatch_stops_at found pre h post w w1 out :
  found_handlers found = pre ++ h :: post →
  chain_tail_calls pre {| params := found_params found |} (set_next 0 w) w1 →
  ignores_next h {| params := found_params found |}
    (set_next (S (next w1)) w1) out →
  dispatch found w = out ∧
  ∀ post', dispatch {| found_params := found_params found;
                       found_handlers := pre ++ h :: post' |} w = out.
Proof.
  intros Hsplit Hchain Hstop. split.
  - by apply (handler_stops_at found pre h post w w1).
  - intros post'.
    by apply (handler_stops_at _ pre h post' w w1).
Qed.

Lemma guard_tail_calls route (ctx : Context) w path :
  compile (base route) (params ctx) = inr path →
  _lastPath w ≠ Some path →
  tail_calls (guard compile route) ctx w (set_lastPath (Some path) w).
Proof.
  intros Hpath Hlast. split; [reflexivity|]. intros k.
  rewrite guard_unfold, Hpath. by destruct (decide _).
Qed.

Lemma guard_ignores_next route (ctx : Context) w path :
  compile (base route) (params ctx) = inr path →
  _lastPath w = Some path →
  ignores_next (guard compile route) ctx w (Ok tt, w).
Proof.
  intros Hpath Hlast k. rewrite guard_unfold, Hpath. by destruct (decide _).
Qed.

(** X5.  Two matching routes whose bases render the same path: on a
    navigation to that path the guard of the first stores it, and when
    the handlers of the first have handed over without touching it, the
    guard of the second finds it stored and returns.  The handlers of
    the second route are not run. *)
Theorem dispatch_second_route_suppressed found r1 hs1 r2 rest w w1 path :
  found_handlers found =
    guard compile r1 :: hs1 ++ guard compile r2 :: rest →
  compile (base r1) (found_params found) = inr path →
  compile (base r2) (found_params found) = inr path →
  _lastPath w ≠ Some path →
  chain_tail_calls hs1 {| params := found_params found |}
    (set_lastPath (Some path) (set_next 1 w)) w1 →
  _lastPath w1 = Some path →
  dispatch found w = (Ok tt, set_next (S (S (length hs1))) w1).
Proof.
  intros Hsplit Hp1 Hp2 Hlast Hchain Hkept.
  pose proof (chain_tail_calls_next _ _ _ _ Hchain) as Hw1. simpl in Hw1.
  rewrite <- Hw1.
  apply (handler_stops_at found (guard compile r1 :: hs1) (guard compile r2)
           rest w w1).
  - exact Hsplit.
  - exists (set_lastPath (Some path) (set_next 1 w)). split; [|exact Hchain].
    by apply (guard_tail_calls r1 {| params := found_params found |}
                (set_next 1 w) path).
  - by apply (guard_ignores_next r2 {| params := found_params found |}
                (set_next (S (next w1)) w1) path).
Qed.

(** *** A navigation from end to end *)

(** The world in which [handleRoutes] resolves: the one it was called
    in, after the request to leave a path that is not the root. *)
Lemma handleRoutes_no_handler this w :
  Forall (λ rt, test (pattern rt) (hash_url (location_hash w)) = false)
    (_routes this) →
  handleRoutes compile (this, w) =
    (Ok tt, (this, if decide (location_pathname w = "/") then w
                   else assign_href ("/#" +:+ location_pathname w) w)).
Proof.
  intros Hall. rewrite handleRoutes_unfold. cbv zeta.
  rewrite (fold_find_step_no_match Host compile _ _ _ Hall). simpl.
  by destruct (decide (location_pathname w = "/")).
Qed.

(** X7.  A hash that no route accepts: [handleRoutes] returns without
    running anything.  On the root path the world is left as it was, to
    the last cell; elsewhere the one change is the request to load the
    hash form of the path. *)
Theorem handleRoutes_no_match this w :
  Forall (λ rt, test (pattern rt) (hash_url (location_hash w)) = false)
    (_routes this) →
  (location_pathname w = "/" →
     handleRoutes compile (this, w) = (Ok tt, (this, w))) ∧
  (location_pathname w ≠ "/" →
     handleRoutes compile (this, w) =
       (Ok tt, (this, assign_href ("/#" +:+ location_pathname w) w))).
Proof.
  intros Hall. rewrite (handleRoutes_no_handler _ _ Hall).
  split; intros Hp; by destruct (decide (location_pathname w = "/")).
Qed.

Lemma handleRoutes_returns_at_guard this w rt others found path :
  List.filter (λ r, test (pattern r) (hash_url (location_hash w)))
    (_routes this) = rt :: others →
  fst (find compile (hash_url (location_hash w)) (this, w)) = Ok found →
  compile (base rt) (found_params found) = inr path →
  _lastPath w = Some path →
  handleRoutes compile (this, w) =
    (Ok tt,
     (this, set_next 1 (if decide (location_pathname w = "/") then w
                        else assign_href ("/#" +:+ location_pathname w) w))).
Proof.
  intros Hfirst Hfind Hpath Hlast.
  rewrite find_unfold in Hfind. simpl in Hfind. injection Hfind as Hfound.
  assert (found_handlers found =
          [] ++ guard compile rt :: (handlers rt ++
            flat_map (λ r, guard compile r :: handlers r) others)) as Hhs.
  { rewrite <- Hfound, find_step_handlers, Hfirst. by simpl. }
  rewrite handleRoutes_unfold. cbv zeta. rewrite Hfound.
  set (w0 := if decide (location_pathname w = "/") then w
             else assign_href ("/#" +:+ location_pathname w) w).
  assert (_lastPath w0 = Some path) as Hlast0.
  { unfold w0. by destruct (decide _). }
  destruct (decide (length (found_handlers found) = 0)) as [Hlen|_].
  { rewrite Hhs in Hlen. simpl in Hlen. lia. }
  rewrite (handler_stops_at found [] (guard compile rt) _ w0 (set_next 0 w0)
             (Ok tt, set_next 1 w0) Hhs eq_refl); [reflexivity|].
  by apply (guard_ignores_next rt {| params := found_params found |}
              (set_next 1 w0) path).
Qed.

(** X4.  A navigation to the path already shown.  When the first route
    that accepts the hash renders, with the parameters found, the path
    that is the last path, [handleRoutes] returns after that guard: no
    handler given to [use] is run, nothing is written but the cursor. *)
Theorem handleRoutes_same_path this w rt others found path :
  List.filter (λ r, test (pattern r) (hash_url (location_hash w)))
    (_routes this) = rt :: others →
  fst (find compile (hash_url (location_hash w)) (this, w)) = Ok found →
  compile (base rt) (found_params found) = inr path →
  _lastPath w = Some path →
  handleRoutes compile (this, w) =
    (Ok tt,
     (this, set_next 1 (if decide (location_pathname w = "/") then w
                        else assign_href ("/#" +:+ location_pathname w) w))).
Proof.
  intros Hfirst Hfind Hpath Hlast.
  by apply (handleRoutes_returns_at_guard this w rt others found path).
Qed.

(** X15.  The same hash twice.  The first route that accepts the hash
    has a first handler that returns without calling its continuation
    and leaves the last path, the hash and the path of the page alone.
    The first [handleRoutes] stores the rendered path and runs that
    handler; the second, in the world the first has left, returns at
    the guard and runs no handler. *)
Theorem handleRoutes_twice this w rt others found h hs' path w1 :
  location_pathname w = "/" →
  List.filter (λ r, test (pattern r) (hash_url (location_hash w)))
    (_routes this) = rt :: others →
  handlers rt = h :: hs' →
  fst (find compile (hash_url (location_hash w)) (this, w)) = Ok found →
  compile (base rt) (found_params found) = inr path →
  _lastPath w ≠ Some path →
  ignores_next h {| params := found_params found |}
    (set_next 2 (set_lastPath (Some path) w)) (Ok tt, w1) →
  _lastPath w1 = Some path →
  location_hash w1 = location_hash w →
  location_pathname w1 = "/" →
  handleRoutes compile (this, w) = (Ok tt, (this, w1)) ∧
  handleRoutes compile (this, w1) = (Ok tt, (this, set_next 1 w1)).
Proof.
  intros Hroot Hfirst Hhs Hfind Hpath Hlast Hstop Hkept Hhash Hroot1. split.
  - rewrite find_unfold in Hfind. simpl in Hfind. injection Hfind as Hfound.
    assert (found_handlers found =
            [guard compile rt] ++ h :: (hs' ++
              flat_map (λ r, guard compile r :: handlers r) others)) as Hsplit.
    { rewrite <- Hfound, find_step_handlers, Hfirst. simpl. by rewrite Hhs. }
    rewrite handleRoutes_unfold. cbv zeta. rewrite Hfound.
    destruct (decide (location_pathname w = "/")); [|done].
    destruct (decide (length (found_handlers found) = 0)) as [Hlen|_].
    { rewrite Hsplit in Hlen. simpl in Hlen. lia. }
    rewrite (handler_stops_at found [guard compile rt] h _ w
               (set_lastPath (Some path) (set_next 1 w)) (Ok tt, w1) Hsplit);
      [reflexivity | | exact Hstop].
    exists (set_lastPath (Some path) (set_next 1 w)). split; [|reflexivity].
    by apply (guard_tail_calls rt {| params := found_params found |}
                (set_next 1 w) path).
  - pose proof (handleRoutes_returns_at_guard this w1 rt others found path)
      as Hagain.
    rewrite Hhash in Hagain. rewrite Hagain; try done.
    by destruct (decide (location_pathname w1 = "/")).
Qed.

Lemma guard_cursor_blind route : cursor_blind (guard compile route).
Proof.
  intros c ctx k Hk w Hc. rewrite guard_unfold.
  destruct (compile _ _) as [e|path]; [by split|].
  destruct (decide (_lastPath w = Some path)); [by split|].
  by apply (Hk (set_lastPath (Some path) w)).
Qed.

Lemma handler_cursor_safe found fuel :
  Forall cursor_blind (found_handlers found) →
  cursor_safe (length (found_handlers found) - fuel)
    (handler found fuel None None).
Proof.
  intros Hall. induction fuel as [|fuel IH]; intros w Hc;
    rewrite handler_unfold.
  - rewrite lookup_ge_None_2 by lia. simpl. split; [done | lia].
  - destruct (found_handlers found !! next w) as [h|] eqn:Hh;
      [|simpl; split; [done | lia]].
    assert (cursor_blind h) as Hblind.
    { rewrite Forall_forall in Hall. apply Hall.
      by apply list_elem_of_lookup_2 with (next w). }
    destruct (Hblind _ {| params := found_params found |} _ IH
                (set_next (S (next w)) w)) as [Hres Hcur]; [simpl; lia|].
    split; [exact Hres|]. simpl in Hcur. lia.
Qed.

Lemma resolved_handlers_cursor_blind url (routes : list (Route Host)) :
  Forall (λ rt, Forall cursor_blind (handlers rt)) routes →
  Forall cursor_blind
    (flat_map (λ rt, guard compile rt :: handlers rt)
       (List.filter (λ rt, test (pattern rt) url) routes)).
Proof.
  intros Hall. induction Hall as [|rt routes Hrt _ IH]; simpl; [constructor|].
  destruct (test (pattern rt) url); [|exact IH]. simpl.
  constructor; [apply guard_cursor_blind|].
  apply Forall_app. by split.
Qed.

(** X8.  The recursion budget of the dispatch loop is enough.  With
    handlers that have no hold on the cursor, as the handlers given to
    [use] are, [handleRoutes] ends by return or by exception: it is
    never short of budget. *)
Theorem handleRoutes_never_stuck this w :
  Forall (λ rt, Forall cursor_blind (handlers rt)) (_routes this) →
  fst (handleRoutes compile (this, w)) ≠ Stuck.
Proof.
  intros Hall. rewrite handleRoutes_unfold. cbv zeta.
  set (found := fold_left _ _ _).
  destruct (decide (length (found_handlers found) = 0)); [done|]. simpl.
  rewrite dispatch_unfold.
  pose proof (handler_cursor_safe found (length (found_handlers found))) as Hsafe.
  rewrite Nat.sub_diag in Hsafe. apply Hsafe; [|simpl; lia].
  unfold found. rewrite find_step_handlers. simpl.
  by apply resolved_handlers_cursor_blind.
Qed.

(** *** Start, stop and redirect *)

(** X12.  [start()] attaches the listener after its first dispatch, so
    that an exception of that dispatch leaves the router unattached.
    When each handler resolved for the page as it loads calls its
    continuation, [start()] throws the [TypeError] of the loop, the
    listener is not added, and on a page that was not listening a later
    [hashchange] runs nothing. *)
Theorem start_throws_before_listening (p : Page Host) this w found :
  state p = (this, w) →
  location_pathname w = "/" →
  fst (find compile (hash_url (location_hash w)) (this, w)) = Ok found →
  found_handlers found ≠ [] →
  chain_invokes (found_handlers found) {| params := found_params found |}
    (set_next 0 w) →
  fst (start compile p) =
    Throw (TypeError "route.handlers[next++] is not a function") ∧
  listening (snd (start compile p)) = listening p ∧
  (listening p = false →
   on_hashchange compile (snd (start compile p)) =
     (Ok tt, snd (start compile p))).
Proof.
  intros Hstate Hroot Hfind Hsome Hchain.
  pose proof (handleRoutes_runs_off_the_end Host compile this w found
                Hroot Hfind Hsome Hchain) as Hthrow.
  unfold start, bind, on_page, modify. rewrite Hstate.
  destruct (handleRoutes compile (this, w)) as [r s'].
  simpl in Hthrow. subst r. simpl.
  split; [reflexivity|]. split; [reflexivity|].
  intros Hoff. unfold on_hashchange. simpl. by rewrite Hoff.
Qed.

(** X13.  When the first dispatch of [start()] returns, the router
    listens: a [hashchange] runs [handleRoutes] on the state of that
    moment.  After [stop()], which changes nothing else, a [hashchange]
    runs nothing, and calling [start()] twice attaches one listener, so
    that one [stop()] is enough. *)
Theorem start_stop_listening (p : Page Host) s1 :
  handleRoutes compile (state p) = (Ok tt, s1) →
  start compile p = (Ok tt, {| state := s1; listening := true |}) ∧
  on_hashchange compile (snd (start compile p)) =
    on_page (handleRoutes compile) {| state := s1; listening := true |} ∧
  (∀ q : Page Host,
     snd (stop q) = {| state := state q; listening := false |} ∧
     on_hashchange compile (snd (stop q)) = (Ok tt, snd (stop q))) ∧
  (∀ s2, handleRoutes compile s1 = (Ok tt, s2) →
         snd (stop (snd (start compile (snd (start compile p))))) =
           {| state := s2; listening := false |}).
Proof.
  intros Hfirst.
  assert (start compile p = (Ok tt, {| state := s1; listening := true |}))
    as Hstart.
  { unfold start, bind, on_page, modify. by rewrite Hfirst. }
  split; [exact Hstart|]. rewrite Hstart. simpl.
  split; [reflexivity|]. split; [by intros q|].
  intros s2 Hsecond.
  unfold start, bind, on_page, modify. simpl. by rewrite Hsecond.
Qed.

Lemma redirect_unfold path this w :
  redirect fragment_encode path (this, w) =
    (Ok tt, (this, assign_hash fragment_encode path w)).
Proof. reflexivity. Qed.

(** X14.  [redirect(path)] with a path that starts with a slash and
    that the URL parser leaves as it is: the hash reads as a hash sign
    and the path, and the url that the next [handleRoutes] resolves is
    that path.  The router, the last path, the cursor and every other
    cell of the world are as they were; resolving is left to the
    [hashchange] that follows. *)
Theorem redirect_then_resolve path rest this w :
  path = String "/" rest →
  fragment_encode path = path →
  location_hash (snd (snd (redirect fragment_encode path (this, w)))) =
    "#" +:+ path ∧
  hash_url (location_hash (snd (snd (redirect fragment_encode path (this, w))))) =
    path ∧
  fst (snd (redirect fragment_encode path (this, w))) = this ∧
  _lastPath (snd (snd (redirect fragment_encode path (this, w)))) = _lastPath w ∧
  redirect fragment_encode ("#" +:+ path) (this, w) =
    redirect fragment_encode path (this, w) ∧
  (let w' := snd (snd (redirect fragment_encode path (this, w))) in
   next w' = next w ∧ console_error w' = console_error w ∧
   location_pathname w' = location_pathname w ∧
   location_href w' = location_href w ∧ host w' = host w) ∧
  fst (redirect fragment_encode path (this, w)) = Ok tt.
Proof.
  intros -> Henc.
  assert (location_hash (assign_hash fragment_encode (String "/" rest) w) =
          "#/" +:+ rest) as Hhash.
  { unfold assign_hash. simpl. by rewrite Henc. }
  rewrite !redirect_unfold. cbn [fst snd]. rewrite Hhash.
  split; [reflexivity|].
  split; [|split; [reflexivity|split; [reflexivity|split; [reflexivity|]]]].
  - unfold hash_url. by rewrite replace_leading.
  - by repeat split.
Qed.

End MoreProperties.

(** ** The further properties at work on the small compiler *)

Lemma pass_tail_calls (ctx : Context) (w : World unit) :
  tail_calls Toy.pass ctx w w.
Proof. by split. Qed.

Lemma halt_ignores_next (ctx : Context) (w : World unit) :
  ignores_next Toy.halt ctx w (Ok tt, w).
Proof. by intros k. Qed.

Lemma pass_cursor_blind : cursor_blind Toy.pass.
Proof. intros c ctx k Hk. exact Hk. Qed.

Lemma halt_cursor_blind : cursor_blind Toy.halt.
Proof. intros c ctx k Hk w Hc. by split. Qed.

Lemma find_after_use_witness :
  ∃ rt before after,
    _routes (fst (snd (use Toy.pathToRegexp "/about" [Toy.halt]
                         (fst Toy.state1, Toy.world0)))) =
      _routes (fst Toy.state1) ++ [rt] ∧
    fst (find Toy.compile "/about" (fst Toy.state1, Toy.world0)) = Ok before ∧
    fst (find Toy.compile "/about"
           (snd (use Toy.pathToRegexp "/about" [Toy.halt]
                   (fst Toy.state1, Toy.world0)))) = Ok after ∧
    found_handlers after =
      found_handlers before ++ [guard Toy.compile rt; Toy.halt].
Proof.
  destruct (find_after_use unit Toy.pathToRegexp Toy.compile "/about" [Toy.halt]
              "/about" (fst Toy.state1) Toy.world0
              {| exec := λ url, if String.eqb url "/about"
                                then Some [VString url] else None |} []
              eq_refl)
    as (rt & before & after & Htable & _ & _ & _ & Hb & Ha & _ & Hyes).
  exists rt, before, after.
  split; [exact Htable|]. split; [exact Hb|]. split; [exact Ha|].
  by apply Hyes.
Defined.

Lemma bases_stay_without_catch_all_witness :
  bases_without_catch_all
    (fst (snd (use Toy.pathToRegexp ("/files/" +:+ catch_all) [Toy.halt]
                 (new_Router "/" Toy.world0)))).
Proof.
  apply (bases_stay_without_catch_all unit Toy.pathToRegexp
           ("/files/" +:+ catch_all) [Toy.halt] "/"
           (fst (new_Router "/" Toy.world0)) (snd (new_Router "/" Toy.world0))).
  constructor.
Defined.

Lemma base_replaces_base_witness :
  ∃ rt, _routes (fst (snd (use Toy.pathToRegexp "/x" [Toy.halt]
                             (snd (Router_base "/api" (Toy.this0, Toy.w0)))))) =
          _routes Toy.this0 ++ [rt] ∧
        test (pattern rt) "/api/x" = true.
Proof.
  destruct (base_replaces_base unit Toy.pathToRegexp Toy.compile "/old" "/api"
              "/x" [Toy.halt] "/" Toy.this0 Toy.w0) as (_ & _ & Huse).
  destruct (Huse ltac:(discriminate)
              {| exec := λ url, if String.eqb url "/api/x"
                                then Some [VString url] else None |} []
              eq_refl) as (rt & Htable & Hre & _).
  exists rt. split; [exact Htable|]. by rewrite Hre.
Defined.

Lemma guard_edge_cases_witness :
  guard Toy.compile Toy.route_users (Some {| params := ∅ |}) (Some Toy.probe)
    Toy.world0 = (Throw (TypeError "Expected a string"), Toy.world0).
Proof.
  apply (guard_edge_cases unit Toy.compile Toy.route_users {| params := ∅ |}
           Toy.probe Toy.world0).
  reflexivity.
Defined.

Lemma dispatch_stops_at_witness :
  dispatch {| found_params := ∅;
              found_handlers := [guard Toy.compile Toy.route_about; Toy.pass;
                                 Toy.halt; Toy.pass] |} Toy.world0 =
    (Ok tt, set_next 3 (set_lastPath (Some "/about") Toy.world0)).
Proof.
  apply (dispatch_stops_at unit
           {| found_params := ∅;
              found_handlers := [guard Toy.compile Toy.route_about; Toy.pass;
                                 Toy.halt; Toy.pass] |}
           [guard Toy.compile Toy.route_about; Toy.pass] Toy.halt [Toy.pass]
           Toy.world0
           (set_next 2 (set_lastPath (Some "/about") Toy.world0))).
  - reflexivity.
  - exists (set_lastPath (Some "/about") (set_next 1 Toy.world0)). split.
    + apply (guard_tail_calls unit Toy.compile); [reflexivity|].
      simpl. discriminate.
    + eexists. split; [apply pass_tail_calls | reflexivity].
  - apply halt_ignores_next.
Defined.

Lemma dispatch_second_route_suppressed_witness :
  dispatch {| found_params := ∅;
              found_handlers := [guard Toy.compile Toy.route_about; Toy.pass;
                                 guard Toy.compile Toy.route_about; Sample.probe_handler] |}
    Toy.world0 =
    (Ok tt, set_next 3 (set_lastPath (Some "/about") Toy.world0)).
Proof.
  apply (dispatch_second_route_suppressed unit Toy.compile
           {| found_params := ∅;
              found_handlers := [guard Toy.compile Toy.route_about; Toy.pass;
                                 guard Toy.compile Toy.route_about;
                                 Sample.probe_handler] |}
           Toy.route_about [Toy.pass] Toy.route_about [Sample.probe_handler]
           Toy.world0
           (set_next 2 (set_lastPath (Some "/about") Toy.world0)) "/about");
    try reflexivity.
  - simpl. discriminate.
  - eexists. split; [apply pass_tail_calls | reflexivity].
Defined.

Lemma handleRoutes_no_match_witness :
  handleRoutes Toy.compile (Toy.this0, Toy.world_root) =
    (Ok tt, (Toy.this0, Toy.world_root)).
Proof.
  apply (handleRoutes_no_match unit Toy.compile Toy.this0 Toy.world_root).
  - repeat constructor.
  - reflexivity.
Defined.

Lemma handleRoutes_same_path_witness :
  handleRoutes Toy.compile
    (fst Toy.state1, set_lastPath (Some "/about") Toy.world0) =
    (Ok tt, (fst Toy.state1,
             set_next 1 (set_lastPath (Some "/about") Toy.world0))).
Proof.
  apply (handleRoutes_same_path unit Toy.compile (fst Toy.state1)
           (set_lastPath (Some "/about") Toy.world0)
           Toy.route_about [] Toy.found_about "/about"); reflexivity.
Defined.

Lemma handleRoutes_never_stuck_witness :
  fst (handleRoutes Toy.compile (Toy.this0, Toy.w0)) ≠ Stuck.
Proof.
  apply (handleRoutes_never_stuck unit Toy.compile Toy.this0 Toy.w0).
  repeat (constructor;
          try apply pass_cursor_blind; try apply halt_cursor_blind).
Defined.

Lemma start_throws_before_listening_witness :
  fst (start Toy.compile Sample.page1) =
    Throw (TypeError "route.handlers[next++] is not a function") ∧
  listening (snd (start Toy.compile Sample.page1)) = false ∧
  on_hashchange Toy.compile (snd (start Toy.compile Sample.page1)) =
    (Ok tt, snd (start Toy.compile Sample.page1)).
Proof.
  destruct (start_throws_before_listening unit Toy.compile Sample.page1
              (fst Toy.state1) (snd Toy.state1) Toy.found_about)
    as (Hthrow & Hoff & Hdeaf).
  - reflexivity.
  - reflexivity.
  - reflexivity.
  - rewrite found_about_handlers. discriminate.
  - rewrite found_about_handlers.
    exists (set_lastPath (Some "/about") (set_next 1 (snd Toy.state1))). split.
    + apply (guard_invokes_next unit Toy.compile); [reflexivity|].
      simpl. discriminate.
    + eexists. split; [apply pass_invokes_next | exact I].
  - split; [exact Hthrow|]. split; [exact Hoff|]. by apply Hdeaf.
Defined.

Lemma start_stop_listening_witness :
  start Toy.compile Sample.page_root =
    (Ok tt, {| state := (Toy.this0, Toy.world_root); listening := true |}) ∧
  snd (stop (snd (start Toy.compile (snd (start Toy.compile Sample.page_root))))) =
    {| state := (Toy.this0, Toy.world_root); listening := false |}.
Proof.
  destruct (start_stop_listening unit Toy.compile Sample.page_root
              (Toy.this0, Toy.world_root) eq_refl)
    as (Hstart & _ & _ & Htwice).
  split; [exact Hstart|]. by apply Htwice.
Defined.

Lemma redirect_then_resolve_witness :
  hash_url (location_hash (snd (snd (redirect (λ s, s) "/about"
                                       (Toy.this0, Toy.world_root))))) =
    "/about".
Proof.
  apply (redirect_then_resolve unit (λ s, s) "/about" "about"
           Toy.this0 Toy.world_root); reflexivity.
Defined.

Lemma handleRoutes_twice_witness :
  handleRoutes Toy.compile Sample.state_log =
    (Ok tt, (fst Sample.state_log,
             log_error "next"
               (set_next 2 (set_lastPath (Some "/about") Toy.world0)))) ∧
  handleRoutes Toy.compile
    (fst Sample.state_log,
     log_error "next" (set_next 2 (set_lastPath (Some "/about") Toy.world0))) =
    (Ok tt, (fst Sample.state_log,
             set_next 1 (log_error "next"
                           (set_next 2 (set_lastPath (Some "/about") Toy.world0))))).
Proof.
  apply (handleRoutes_twice unit Toy.compile (fst Sample.state_log)
           (snd Sample.state_log)
           (default Toy.route_users (_routes (fst Sample.state_log) !! 0)) []
           {| found_params := ∅;
              found_handlers :=
                [guard Toy.compile
                   (default Toy.route_users (_routes (fst Sample.state_log) !! 0));
                 Sample.probe_handler] |}
           Sample.probe_handler [] "/about"
           (log_error "next"
              (set_next 2 (set_lastPath (Some "/about") Toy.world0))));
    try reflexivity.
  - simpl. discriminate.
  - by intros k.
Defined.
